(** * kapok/parse: the streaming Wikipedia-dump parser

    A shallow embedding of [parse/parse.go].  Every stage of the pipeline
    is a goroutine that reads one channel and writes another; each channel
    has one producer and one consumer, so a stage is modelled by the
    function from the list of items it receives to the list of items it
    sends, and closing the output channel by the end of that list.

    The line source is modelled on the answers of its scanner, the other
    stages on the chunks they receive.  The two are not put together into
    a function from a reader to pages: [GetChunks] sends the slice that
    [scanner.Bytes()] returns, which is the scanner's own buffer, and the
    next [Scan] may shift and refill it while [GetRawPages] still reads
    the chunk, so what the assembler receives in a run of the program
    need not be the line that was read.  Every statement about the
    assembler and the stages behind it is about the chunks received.

    Go strings and byte slices are lists of bytes.  The five package-level
    patterns are written in a small regular-expression syntax and executed
    by a backtracking matcher that returns the attempts in the order a
    backtracking search tries them, which is the leftmost-first discipline
    of Go's [regexp] package.

    Two things come from outside [parse.go]: the struct [Page], declared
    elsewhere in the package, and [xml.Unmarshal], which the pipeline
    takes as a parameter. *)

From Stdlib Require Import Strings.Byte Strings.String.
From Stdlib Require Import List Bool Arith Lia.
Import ListNotations.

(** ** Bytes *)

Abbreviation bytes := (list byte).

(** [b "..."] is the byte sequence of a Go string literal. *)
Definition b (s : string) : bytes := list_byte_of_string s.

Arguments b _ : simpl never.

Definition NL : byte := x0a.
Definition TAB : byte := x09.

(** [mem x l]: the byte [x] occurs in [l]. *)
Definition mem (x : byte) (l : bytes) : bool := existsb (Byte.eqb x) l.

(** [strip_prefix p s] removes the literal [p] from the front of [s]. *)
Fixpoint strip_prefix (p s : bytes) : option bytes :=
  match p with
  | [] => Some s
  | c :: p' =>
      match s with
      | [] => None
      | x :: s' => if Byte.eqb x c then strip_prefix p' s' else None
      end
  end.

(** ** Regular expressions

    The fragment of RE2 syntax that the package's patterns use: literals,
    character classes, a class under [*], [+], [*?] or [+?], concatenation
    and capturing groups.  The matcher works on bytes; the patterns'
    literals and class members are all ASCII, so it agrees with Go's
    rune-wise matcher on every input. *)

Module Regexp.

Inductive class :=
| Dot                      (* .    : any byte but a line feed *)
| OneOf (l : bytes)        (* [..] *)
| NoneOf (l : bytes).      (* [^..] : line feed included *)

Definition in_class (c : class) (x : byte) : bool :=
  match c with
  | Dot => negb (Byte.eqb x NL)
  | OneOf l => mem x l
  | NoneOf l => negb (mem x l)
  end.

Inductive regex :=
| Literal (l : bytes)
| Cls (c : class)
| Star (c : class) (greedy : bool)
| Plus (c : class) (greedy : bool)
| Cat (r1 r2 : regex)
| Group (r : regex).

(** One way of matching at the front of a subject: the text consumed,
    the texts of the capturing groups, and what is left. *)
Record attempt := At { text : bytes; caps : list bytes; rest : bytes }.

Definition consume (x : byte) (a : bytes * bytes) : bytes * bytes :=
  (x :: fst a, snd a).

(** The ways of splitting off a run of bytes satisfying [p], shortest
    first (lazy) or longest first (greedy). *)
Fixpoint runs_lazy (p : byte -> bool) (s : bytes) : list (bytes * bytes) :=
  ([], s) ::
  match s with
  | x :: s' => if p x then map (consume x) (runs_lazy p s') else []
  | [] => []
  end.

Fixpoint runs_greedy (p : byte -> bool) (s : bytes) : list (bytes * bytes) :=
  match s with
  | x :: s' =>
      if p x then map (consume x) (runs_greedy p s') ++ [([], s)]
      else [([], s)]
  | [] => [([], [])]
  end.

Definition runs (greedy : bool) := if greedy then runs_greedy else runs_lazy.

Definition plain (a : bytes * bytes) : attempt :=
  At (fst a) [] (snd a).

Definition seq (a1 a2 : attempt) : attempt :=
  At (text a1 ++ text a2) (caps a1 ++ caps a2) (rest a2).

Definition capture (a : attempt) : attempt :=
  At (text a) (text a :: caps a) (rest a).

(** [exec r s]: every way [r] matches a prefix of [s], in the order a
    backtracking search finds them. *)
Fixpoint exec (r : regex) (s : bytes) : list attempt :=
  match r with
  | Literal l =>
      match strip_prefix l s with
      | Some s' => [At l [] s']
      | None => []
      end
  | Cls c =>
      match s with
      | x :: s' => if in_class c x then [At [x] [] s'] else []
      | [] => []
      end
  | Star c g => map plain (runs g (in_class c) s)
  | Plus c g =>
      match s with
      | x :: s' =>
          if in_class c x
          then map plain (map (consume x) (runs g (in_class c) s'))
          else []
      | [] => []
      end
  | Cat r1 r2 =>
      flat_map (fun a1 => map (seq a1) (exec r2 (rest a1))) (exec r1 s)
  | Group r' => map capture (exec r' s)
  end.

(** A match found by an unanchored search: the bytes skipped before it
    and the preferred attempt there. *)
Record found := Found { skipped : bytes; hit : attempt }.

Definition skip (x : byte) (f : found) : found :=
  Found (x :: skipped f) (hit f).

(** Leftmost-first search. *)
Fixpoint find (r : regex) (s : bytes) : option found :=
  match exec r s with
  | a :: _ => Some (Found [] a)
  | [] =>
      match s with
      | [] => None
      | x :: s' => option_map (skip x) (find r s')
      end
  end.

(** [re.Match(b)] *)
Definition Match (r : regex) (s : bytes) : bool :=
  match find r s with Some _ => true | None => false end.

(** [re.Find(b)]: the text of the leftmost match, [None] for Go's nil. *)
Definition Find (r : regex) (s : bytes) : option bytes :=
  option_map (fun f => text (hit f)) (find r s).

Definition is_nil (l : bytes) : bool :=
  match l with [] => true | _ => false end.

(** The loop of [allMatches]: [adjacent] says that the search position
    is where the previous match ended.  An empty match there is not
    delivered, and after an empty match the position moves one byte on. *)
Fixpoint allMatches (fuel : nat) (r : regex) (s : bytes) (adjacent : bool)
  : list (list bytes) :=
  match fuel with
  | 0 => []
  | S fuel' =>
      match find r s with
      | None => []
      | Some f =>
          let a := hit f in
          if is_nil (skipped f) && is_nil (text a) then
            (if adjacent then [] else [text a :: caps a]) ++
            match rest a with
            | [] => []
            | _ :: s' => allMatches fuel' r s' false
            end
          else (text a :: caps a) :: allMatches fuel' r (rest a) true
      end
  end.

(** [re.FindAllStringSubmatch(s, -1)]: for each successive match, its
    text followed by the texts of its groups. *)
Definition FindAllStringSubmatch (r : regex) (s : bytes) : list (list bytes) :=
  allMatches (S (length s)) r s false.

End Regexp.

Import Regexp.

(** ** The package's patterns *)

(* ".*<page>.*" *)
Definition pageStartRegex : regex :=
  Cat (Star Dot true) (Cat (Literal (b "<page>")) (Star Dot true)).

(* ".*</page>.*" *)
Definition pageEndRegex : regex :=
  Cat (Star Dot true) (Cat (Literal (b "</page>")) (Star Dot true)).

(* "#REDIRECT[ \t].*?\\[\\[.*?\\]\\]" *)
Definition redirectRegex : regex :=
  Cat (Literal (b "#REDIRECT"))
 (Cat (Cls (OneOf [" "%byte; TAB]))
 (Cat (Star Dot false)
 (Cat (Literal (b "[["))
 (Cat (Star Dot false)
      (Literal (b "]]")))))).

(* "\\[\\[([^|]+?)\\]\\]" *)
Definition linkRegex : regex :=
  Cat (Literal (b "[["))
 (Cat (Group (Plus (NoneOf (b "|")) false))
      (Literal (b "]]"))).

(* "\\[\\[Category:(.+?)\\]\\]" *)
Definition categoryRegex : regex :=
  Cat (Literal (b "[[Category:"))
 (Cat (Group (Plus Dot false))
      (Literal (b "]]"))).

(** ** The line source

    [bufio.Scanner] as [GetChunks] uses it.  [script] lists the answers
    that [Scan] still has to give before the scanner is exhausted,
    [Some t] for true with the token [t] and [None] for false; after them
    [Scan] answers false on every call.  [err] is what [Err] returns once
    [Scan] has answered false: [None] when the reader ended with [io.EOF],
    and otherwise the first error met, which the scanner keeps.  Which
    answers a reader leads to is the scanner's business: a line whose
    first 65536 bytes hold no line feed makes [Scan] answer false with
    [bufio.ErrTooLong], after which one more call hands out those 65536
    bytes as a token. *)

Record Scanner := {
  script : list (option bytes);
  token : bytes;
  err : option string
}.

Definition Scan (sc : Scanner) : bool * Scanner :=
  match script sc with
  | Some t :: rest => (true, {| script := rest; token := t; err := err sc |})
  | None :: rest =>
      (false, {| script := rest; token := token sc; err := err sc |})
  | [] => (false, sc)
  end.

Definition Bytes (sc : Scanner) : bytes := token sc.

Definition Err (sc : Scanner) : option string := err sc.

(** What [GetChunks] has done so far: the lines sent on [chunks], the
    lines written to the log, and whether [chunks] has been closed. *)
Record source := {
  scanner : Scanner;
  sent : list bytes;
  logged : list string;
  closed : bool
}.

(** [fuel] iterations of the loop [for !eof], then [close(chunks)] if the
    loop was left. *)
Fixpoint GetChunks_loop (fuel : nat) (st : source) : source :=
  match fuel with
  | 0 => st
  | S fuel' =>
      let (ok, sc) := Scan (scanner st) in
      if ok then
        GetChunks_loop fuel'
          {| scanner := sc; sent := sent st ++ [Bytes sc];
             logged := logged st; closed := false |}
      else
        match Err sc with
        | Some e =>
            GetChunks_loop fuel'
              {| scanner := sc; sent := sent st;
                 logged := logged st ++ [(e ++ " skipping line")%string];
                 closed := false |}
        | None =>
            {| scanner := sc; sent := sent st;
               logged := logged st; closed := true |}
        end
  end.

Definition GetChunks (fuel : nat) (reader : Scanner) : source :=
  GetChunks_loop fuel
    {| scanner := reader; sent := []; logged := []; closed := false |}.

(** The tokens among the answers of a scanner. *)
Definition tokens (l : list (option bytes)) : list bytes :=
  flat_map (fun o => match o with Some t => [t] | None => [] end) l.

(** ** The block assembler *)

Record assembler := { page : bytes; inPage : bool }.

(** One iteration of the loop of [GetRawPages] on a received chunk: the
    new state and the blocks sent on [pages]. *)
Definition GetRawPages_step (st : assembler) (chunk : bytes)
  : assembler * list bytes :=
  if Match pageStartRegex chunk then
    ({| page := page st; inPage := true |}, [])
  else if Match pageEndRegex chunk then
    if inPage st then
      ({| page := b "<page>"; inPage := false |}, [page st ++ b "</page>"])
    else
      ({| page := page st; inPage := false |}, [])
  else
    if inPage st then
      ({| page := page st ++ chunk; inPage := inPage st |}, [])
    else (st, []).

(** The loop; when [chunks] is closed, [pages] is closed and nothing more
    is sent. *)
Fixpoint GetRawPages_loop (st : assembler) (chunks : list bytes) : list bytes :=
  match chunks with
  | [] => []
  | chunk :: chunks' =>
      let (st', out) := GetRawPages_step st chunk in
      out ++ GetRawPages_loop st' chunks'
  end.

Definition GetRawPages (chunks : list bytes) : list bytes :=
  GetRawPages_loop {| page := b "<page>"; inPage := false |} chunks.

(** The state the assembler is in after a sequence of chunks. *)
Definition assembler_after (st : assembler) (chunks : list bytes) : assembler :=
  fold_left (fun st chunk => fst (GetRawPages_step st chunk)) chunks st.

(** ** The redirect filter *)

Definition FilterRedirects (rawPages : list bytes) : list bytes :=
  filter (fun rawPage =>
            match Find redirectRegex rawPage with
            | None => true
            | Some _ => false
            end) rawPages.

(** ** Pages *)

(** Modelled from the spec: the struct [Page] of package [parse], which
    [parse.go] uses and does not declare.  Section 3 of the specification
    gives it a title, a revision holding the body text, the links and the
    categories. *)
Record revision := { Text : bytes }.

Record Page := {
  Title : bytes;
  Revision : revision;
  Links : list bytes;
  Categories : list bytes
}.

(** [strings.Trim(s, cutset)] for an ASCII cutset. *)
Fixpoint TrimLeft (s cutset : bytes) : bytes :=
  match s with
  | x :: s' => if mem x cutset then TrimLeft s' cutset else s
  | [] => []
  end.

Definition TrimRight (s cutset : bytes) : bytes :=
  rev (TrimLeft (rev s) cutset).

Definition Trim (s cutset : bytes) : bytes :=
  TrimLeft (TrimRight s cutset) cutset.

(** [m[1]] of a submatch. *)
Definition sub1 (m : list bytes) : bytes := nth 1 m [].

(** The body of the loop of [GetLinks] for one page. *)
Definition GetLinks_page (p : Page) : Page :=
  let links := FindAllStringSubmatch linkRegex (Text (Revision p)) in
  {| Title := Title p;
     Revision := Revision p;
     Links := fold_left (fun acc link => acc ++ [sub1 link]) links (Links p);
     Categories := Categories p |}.

Definition GetLinks (pages : list Page) : list Page := map GetLinks_page pages.

(** The body of the loop of [GetCategories] for one page. *)
Definition GetCategories_page (p : Page) : Page :=
  let rawCats := FindAllStringSubmatch categoryRegex (Text (Revision p)) in
  let cats :=
    map (fun rawCat => Trim (sub1 rawCat) (b " " ++ [TAB] ++ b "|")) rawCats in
  {| Title := Title p;
     Revision := Revision p;
     Links := Links p;
     Categories := cats |}.

Definition GetCategories (pages : list Page) : list Page :=
  map GetCategories_page pages.

(** ** The decoder and the pipeline

    [Unmarshal rawPage] stands for [xml.Unmarshal(rawPage, &Page{})]:
    the decoded page when the error is nil. *)

Section Pipeline.

Variable Unmarshal : bytes -> option Page.

Definition GetPages (rawPages : list bytes) : list Page :=
  flat_map (fun rawPage =>
              match Unmarshal rawPage with
              | Some pageStruct => [pageStruct]
              | None => []
              end) rawPages.

(** The four stages that [Parse] starts behind the line source, on the
    chunks the assembler receives. *)
Definition ParseChunks (chunks : list bytes) : list Page :=
  GetLinks (GetPages (FilterRedirects (GetRawPages chunks))).

(** The same behind [CategorizedParse], which reads the pages of [Parse]
    through [GetCategories]. *)
Definition CategorizedParseChunks (chunks : list bytes) : list Page :=
  GetCategories (ParseChunks chunks).

End Pipeline.

(** * Vocabulary of the properties *)

(** [contains l s]: [l] occurs in [s] as a contiguous run of bytes. *)
Definition contains (l s : bytes) : Prop :=
  exists before after, s = before ++ l ++ after.

Definition marker (l : bytes) : regex :=
  Cat (Star Dot true) (Cat (Literal l) (Star Dot true)).

Definition outside : assembler := {| page := b "<page>"; inPage := false |}.

(** A chunk closes a block when it matches the end pattern and not the
    start pattern, which is tried first. *)
Definition closing (chunk : bytes) : bool :=
  negb (Match pageStartRegex chunk) && Match pageEndRegex chunk.

Definition interior (chunk : bytes) : bool :=
  negb (Match pageStartRegex chunk) && negb (Match pageEndRegex chunk).

(** A page as it lies in a dump: the lines before it that are no start
    line, its start line, its interior lines and its closing line. *)
Record block := {
  gap : list bytes;
  opening : bytes;
  body : list bytes;
  ending : bytes
}.

Definition block_lines (bl : block) : list bytes :=
  gap bl ++ opening bl :: body bl ++ [ending bl].

Definition block_raw (bl : block) : bytes :=
  b "<page>" ++ concat (body bl) ++ b "</page>".

Definition well_formed (bl : block) : bool :=
  forallb (fun c => negb (Match pageStartRegex c)) (gap bl) &&
  Match pageStartRegex (opening bl) &&
  forallb interior (body bl) &&
  closing (ending bl).

(** The directive that [redirectRegex] describes: ["#REDIRECT"], a space
    or a tab, then on the same line a target between double brackets. *)
Definition redirect_directive (rawPage : bytes) : Prop :=
  exists before sp between target after,
    rawPage = before ++ b "#REDIRECT" ++ sp :: between ++
              b "[[" ++ target ++ b "]]" ++ after /\
    (sp = " "%byte \/ sp = TAB) /\
    ~ In NL between /\ ~ In NL target.

(** The directive in the words of the specification: ["#REDIRECT"]
    followed by a target between double brackets. *)
Definition redirect_directive_spec (rawPage : bytes) : Prop :=
  exists before between target after,
    rawPage = before ++ b "#REDIRECT" ++ between ++
              b "[[" ++ target ++ b "]]" ++ after.

(** A pattern none of whose matches is empty. *)
Definition never_empty (r : regex) : Prop :=
  forall s a, In a (exec r s) -> text a <> [].

(** The shape of [linkRegex] and [categoryRegex]: two opening brackets and
    a prefix, a captured run of one or more bytes of a class, as short as
    can be, and two closing brackets. *)
Definition bracketed (prefix : bytes) (cls : class) : regex :=
  Cat (Literal (b "[[" ++ prefix))
 (Cat (Group (Plus cls false))
      (Literal (b "]]"))).

(** A continuation of a run that fails unless two closing brackets come
    next. *)
Definition needs_close (A : Type) (F : bytes * bytes -> list A) : Prop :=
  forall x y1 y2, y1 <> "]"%byte -> F (x, y1 :: y2) = [].

(** The attempts of a bracketed pattern behind its prefix, as a search
    over the runs of the class. *)
Definition close_after (prefix : bytes) (c : byte) (sp : bytes * bytes)
  : list attempt :=
  match strip_prefix (b "]]") (snd sp) with
  | Some s' =>
      [At ((b "[[" ++ prefix) ++ (c :: fst sp) ++ b "]]") [c :: fst sp] s']
  | None => []
  end.

(** Body text as a sequence of plain stretches and bracketed references. *)
Inductive segment :=
| Plain (p : bytes)
| Ref (target : bytes).

Definition render_segment (sg : segment) : bytes :=
  match sg with
  | Plain p => p
  | Ref t => b "[[" ++ t ++ b "]]"
  end.

Definition render (segs : list segment) : bytes :=
  concat (map render_segment segs).

(** A plain stretch holds no opening bracket; the target of a reference is
    not empty and holds no bracket. *)
Definition segment_ok (sg : segment) : bool :=
  match sg with
  | Plain p => negb (mem "["%byte p)
  | Ref t => negb (is_nil t) && negb (mem "["%byte t) && negb (mem "]"%byte t)
  end.

(** A category reference names a category on one line. *)
Definition category_ok (sg : segment) : bool :=
  match sg with
  | Plain _ => true
  | Ref t =>
      match strip_prefix (b "Category:") t with
      | Some name => negb (is_nil name) && negb (mem NL name)
      | None => true
      end
  end.

(** The targets of the references without a pipe. *)
Definition targets (segs : list segment) : list bytes :=
  flat_map (fun sg =>
              match sg with
              | Ref t => if mem "|"%byte t then [] else [t]
              | Plain _ => []
              end) segs.

Definition cutset : bytes := b " " ++ [TAB] ++ b "|".

(** The names of the category references, prefix stripped, trimmed. *)
Definition category_names (segs : list segment) : list bytes :=
  flat_map (fun sg =>
              match sg with
              | Ref t =>
                  match strip_prefix (b "Category:") t with
                  | Some name => [Trim name cutset]
                  | None => []
                  end
              | Plain _ => []
              end) segs.

(** What [Trim] leaves and what it cuts off. *)
Definition all_in (cut l : bytes) : bool := forallb (fun x => mem x cut) l.

Definition head_outside (cut l : bytes) : Prop :=
  match l with
  | x :: _ => mem x cut = false
  | [] => True
  end.

(** The example of the specification: two links and a category. *)
Definition example_text : bytes :=
  b "[[A]] is related to [[B]] and [[Category:C]]".

Definition example_segments : list segment :=
  [Ref (b "A"); Plain (b " is related to "); Ref (b "B"); Plain (b " and ");
   Ref (b "Category:C")].

Definition category_segments : list segment :=
  [Plain (b "See "); Ref (b "A"); Ref (b "Category: Foo | ");
   Plain (b " and "); Ref (b "Category:Bar|key")].

(** A decoder to run the pipeline with: it rejects the empty block and
    otherwise keeps the whole block as the body text. *)
Definition sample_Unmarshal (rawPage : bytes) : option Page :=
  match rawPage with
  | [] => None
  | _ => Some {| Title := []; Revision := {| Text := rawPage |};
                 Links := []; Categories := [] |}
  end.

Definition page_of_text (t : bytes) : Page :=
  {| Title := []; Revision := {| Text := t |}; Links := []; Categories := [] |}.

(** A dump of two pages. *)
Definition sample_blocks : list block :=
  [ {| gap := [b "<mediawiki>"]; opening := b "  <page>";
       body := [b "<title>One</title>"; b "[[Two]] and [[Three]]"];
       ending := b "  </page>" |};
    {| gap := []; opening := b "  <page>";
       body := [b "<title>Two</title>"; b "[[Category:Numbers]]"];
       ending := b "  </page>" |} ].

(** The directive as it shows in a block without line feed: the bytes
    between its parts are free. *)
Definition redirect_directive_joined (rawPage : bytes) : Prop :=
  exists before sp between target after,
    rawPage = before ++ b "#REDIRECT" ++ sp :: between ++
              b "[[" ++ target ++ b "]]" ++ after /\
    (sp = " "%byte \/ sp = TAB).

(** A block put together from interior lines that satisfy [Q]. *)
Definition assembled (Q : bytes -> Prop) (blk : bytes) : Prop :=
  exists ls,
    blk = b "<page>" ++ concat ls ++ b "</page>" /\
    Forall (fun c => Q c /\ interior c = true) ls.

(** A dump with a page on each line. *)
Definition one_line_pages : list bytes :=
  [b "<page><title>One</title></page>"; b "<page><title>Two</title></page>"].

(** A page that speaks of redirects on one line and links on the next. *)
Definition redirect_in_prose : list bytes :=
  [b "<page>"; b "<text>write #REDIRECT on top"; b "as in [[Help]]</text>";
   b "</page>"].

(** The same page as a block of a dump. *)
Definition prose_block : block :=
  {| gap := []; opening := b "<page>";
     body := [b "<text>write #REDIRECT on top"; b "as in [[Help]]</text>"];
     ending := b "</page>" |}.

(** [kept Unmarshal rawPages pages]: [pages] are the pages decoded from
    the blocks of [rawPages] that hold no redirect directive and decode,
    in their order. *)
Inductive kept (Unmarshal : bytes -> option Page)
  : list bytes -> list Page -> Prop :=
| kept_nil : kept Unmarshal [] []
| kept_redirect rawPage rawPages pages :
    redirect_directive rawPage ->
    kept Unmarshal rawPages pages ->
    kept Unmarshal (rawPage :: rawPages) pages
| kept_undecoded rawPage rawPages pages :
    Unmarshal rawPage = None ->
    kept Unmarshal rawPages pages ->
    kept Unmarshal (rawPage :: rawPages) pages
| kept_page rawPage p rawPages pages :
    ~ redirect_directive rawPage ->
    Unmarshal rawPage = Some p ->
    kept Unmarshal rawPages pages ->
    kept Unmarshal (rawPage :: rawPages) (p :: pages).

(** * The layout of package visual

    [SafeGet] of [visual/visual.go].  What lies outside the file is taken
    as given: the struct [Vector], the nodes and the graph of package
    [graph] with a node's name and the number of its neighbours, the
    state of the random source behind [rand.Float64], and [newVector],
    the floating-point computation that turns the angle drawn and the
    number of neighbours into a vector.  The map [Positions] is a partial
    function on names. *)

Section Visual.

Variables Vector float64 Rand Node Graph : Type.
Variable Float64 : Rand -> float64 * Rand.
Variable newVector : float64 -> nat -> Vector.
Variable Name : Node -> string.
Variable neighbours : Graph -> Node -> nat.

Record positions := {
  Positions : string -> option Vector;
  Graph_of : Graph
}.

Definition newPositions (graph : Graph) : positions :=
  {| Positions := fun _ => None; Graph_of := graph |}.

(** [self.Positions[name] = vector] *)
Definition store (self : positions) (name : string) (vector : Vector)
  : positions :=
  {| Positions := fun k => if String.eqb k name then Some vector
                           else Positions self k;
     Graph_of := Graph_of self |}.

(** [SafeGet]: the vector returned, the positions and the random source
    afterwards. *)
Definition SafeGet (self : positions) (node : Node) (rng : Rand)
  : Vector * positions * Rand :=
  match Positions self (Name node) with
  | Some vector => (vector, self, rng)
  | None =>
      let (angle, rng') := Float64 rng in
      let vector := newVector angle (neighbours (Graph_of self) node) in
      (vector, store self (Name node) vector, rng')
  end.

End Visual.

Arguments Positions {Vector Graph} _ _.
Arguments Graph_of {Vector Graph} _.
Arguments newPositions {Vector Graph} _.
Arguments store {Vector Graph} _ _ _.
Arguments SafeGet {Vector float64 Rand Node Graph} _ _ _ _ _ _ _.

(** A random source that counts, vectors that record the angle drawn and
    the number of neighbours, and nodes that carry their name and that
    number. *)
Definition sample_Float64 (rng : nat) : nat * nat := (rng, S rng).

Definition sample_newVector (angle n : nat) : nat * nat := (angle, n).

Definition sample_neighbours (_ : unit) (node : string * nat) : nat :=
  snd node.

Definition sample_get :=
  SafeGet sample_Float64 sample_newVector (@fst string nat) sample_neighbours.

(** * Properties *)

(** ** Bytes and prefixes *)

Lemma byte_eqb_eq (x y : byte) : Byte.eqb x y = true <-> x = y.
Proof.
  split.
  - apply Byte.byte_dec_bl.
  - apply Byte.byte_dec_lb.
Qed.

Lemma byte_eqb_refl (x : byte) : Byte.eqb x x = true.
Proof. now apply byte_eqb_eq. Qed.

Lemma byte_eqb_neq (x y : byte) : Byte.eqb x y = false <-> x <> y.
Proof.
  rewrite <- byte_eqb_eq. destruct (Byte.eqb x y); split; congruence.
Qed.

Lemma mem_In (x : byte) (l : bytes) : mem x l = true <-> In x l.
Proof.
  unfold mem. rewrite existsb_exists. split.
  - intros [y [Hy He]]. apply byte_eqb_eq in He. now subst.
  - intros H. exists x. split; [assumption | apply byte_eqb_refl].
Qed.

Lemma mem_cons (x c : byte) (l : bytes) :
  mem x (c :: l) = Byte.eqb x c || mem x l.
Proof. reflexivity. Qed.

Lemma mem_app (x : byte) (l1 l2 : bytes) :
  mem x (l1 ++ l2) = mem x l1 || mem x l2.
Proof. unfold mem. apply existsb_app. Qed.

Lemma strip_prefix_app (p s : bytes) : strip_prefix p (p ++ s) = Some s.
Proof.
  induction p as [|c p IH]; simpl; [reflexivity|].
  now rewrite byte_eqb_refl.
Qed.

Lemma strip_prefix_Some (p s r : bytes) :
  strip_prefix p s = Some r -> s = p ++ r.
Proof.
  revert s. induction p as [|c p IH]; simpl; intros s H.
  - congruence.
  - destruct s as [|x s]; [discriminate|].
    destruct (Byte.eqb x c) eqn:E; [|discriminate].
    apply byte_eqb_eq in E. subst. f_equal. now apply IH.
Qed.

(** ** The matcher *)

Lemma runs_lazy_In (p : byte -> bool) (s x y : bytes) :
  In (x, y) (runs_lazy p s) <-> s = x ++ y /\ forallb p x = true.
Proof.
  revert x y. induction s as [|c s IH]; intros x y; simpl.
  - split.
    + intros [H|[]]. inversion H. now split.
    + intros [H _]. left. symmetry in H. apply app_eq_nil in H.
      destruct H; now subst.
  - split.
    + intros [H|H].
      * inversion H. now split.
      * destruct (p c) eqn:Hc; [|contradiction].
        apply in_map_iff in H. destruct H as [[x' y'] [E H]].
        unfold consume in E. simpl in E. inversion E; subst.
        apply IH in H. destruct H as [-> Hx]. simpl. now rewrite Hc.
    + intros [H Hx]. destruct x as [|c' x]; simpl in H.
      * left. now subst.
      * right. inversion H; subst. simpl in Hx.
        apply andb_true_iff in Hx. destruct Hx as [Hc Hx]. rewrite Hc.
        apply in_map_iff. exists (x, y). split; [reflexivity|].
        now apply IH.
Qed.

Lemma runs_greedy_In (p : byte -> bool) (s x y : bytes) :
  In (x, y) (runs_greedy p s) <-> s = x ++ y /\ forallb p x = true.
Proof.
  revert x y. induction s as [|c s IH]; intros x y; simpl.
  - split.
    + intros [H|[]]. inversion H. now split.
    + intros [H _]. left. symmetry in H. apply app_eq_nil in H.
      destruct H; now subst.
  - destruct (p c) eqn:Hc.
    + rewrite in_app_iff, in_map_iff. split.
      * intros [[[x' y'] [E H]]|[H|[]]].
        -- unfold consume in E. simpl in E. inversion E; subst.
           apply IH in H. destruct H as [-> Hx]. simpl. now rewrite Hc.
        -- inversion H. now split.
      * intros [H Hx]. destruct x as [|c' x]; simpl in H.
        -- right. left. now subst.
        -- left. inversion H; subst. simpl in Hx.
           apply andb_true_iff in Hx. destruct Hx as [_ Hx].
           exists (x, y). split; [reflexivity|]. now apply IH.
    + split.
      * intros [H|[]]. inversion H. now split.
      * intros [H Hx]. destruct x as [|c' x]; simpl in H.
        -- left. now subst.
        -- inversion H; subst. simpl in Hx. rewrite Hc in Hx. discriminate.
Qed.

Lemma runs_In (g : bool) (p : byte -> bool) (s x y : bytes) :
  In (x, y) (runs g p s) <-> s = x ++ y /\ forallb p x = true.
Proof.
  destruct g; [apply runs_greedy_In | apply runs_lazy_In].
Qed.

Lemma exec_Literal_In (l s : bytes) (a : attempt) :
  In a (exec (Literal l) s) <-> exists r, s = l ++ r /\ a = At l [] r.
Proof.
  simpl. destruct (strip_prefix l s) as [r|] eqn:E.
  - apply strip_prefix_Some in E. subst. split.
    + intros [H|[]]. now exists r.
    + intros [r' [H ->]]. apply app_inv_head in H. subst. now left.
  - split; [intros []|]. intros [r [-> _]].
    rewrite strip_prefix_app in E. discriminate.
Qed.

Lemma exec_Star_In (c : class) (g : bool) (s : bytes) (a : attempt) :
  In a (exec (Star c g) s) <->
  exists x r, s = x ++ r /\ forallb (in_class c) x = true /\ a = At x [] r.
Proof.
  simpl. rewrite in_map_iff. split.
  - intros [[x r] [<- H]]. apply runs_In in H. destruct H as [-> Hx].
    now exists x, r.
  - intros [x [r [-> [Hx ->]]]]. exists (x, r). split; [reflexivity|].
    now apply runs_In.
Qed.

Lemma exec_Cat_In (r1 r2 : regex) (s : bytes) (a : attempt) :
  In a (exec (Cat r1 r2) s) <->
  exists a1 a2, In a1 (exec r1 s) /\ In a2 (exec r2 (rest a1)) /\ a = seq a1 a2.
Proof.
  simpl. rewrite in_flat_map. split.
  - intros [a1 [H1 H]]. apply in_map_iff in H. destruct H as [a2 [<- H2]].
    now exists a1, a2.
  - intros [a1 [a2 [H1 [H2 ->]]]]. exists a1. split; [assumption|].
    apply in_map_iff. now exists a2.
Qed.

Lemma exec_Cls_In (c : class) (s : bytes) (a : attempt) :
  In a (exec (Cls c) s) <->
  exists x r, s = x :: r /\ in_class c x = true /\ a = At [x] [] r.
Proof.
  simpl. destruct s as [|x s].
  - split; [intros []|]. intros [x [r [H _]]]. discriminate.
  - destruct (in_class c x) eqn:Hc.
    + split.
      * intros [<-|[]]. now exists x, s.
      * intros [x' [r [H [_ ->]]]]. inversion H; subst. now left.
    + split; [intros []|]. intros [x' [r [H [Hx _]]]]. inversion H; subst.
      congruence.
Qed.

(** The search succeeds exactly when the pattern matches at the front of
    some suffix of the subject. *)
Lemma find_Some_iff (r : regex) (s : bytes) :
  (exists f, find r s = Some f) <->
  (exists p q a, s = p ++ q /\ In a (exec r q)).
Proof.
  induction s as [|x s IH]; simpl.
  - destruct (exec r []) as [|a l] eqn:E.
    + split; [intros [f H]; discriminate|].
      intros [p [q [a [H Ha]]]]. symmetry in H. apply app_eq_nil in H.
      destruct H; subst. rewrite E in Ha. destruct Ha.
    + split; [|intros _; eexists; reflexivity].
      intros _. exists [], [], a. split; [reflexivity|]. rewrite E. now left.
  - destruct (exec r (x :: s)) as [|a l] eqn:E.
    + split.
      * intros [f H]. destruct (find r s) as [f'|] eqn:F; [|discriminate].
        destruct IH as [IH _]. destruct IH as [p [q [a [-> Ha]]]].
        { now exists f'. }
        now exists (x :: p), q, a.
      * intros [p [q [a [H Ha]]]]. destruct p as [|x' p]; simpl in H.
        -- subst q. rewrite E in Ha. destruct Ha.
        -- inversion H; subst. destruct IH as [_ IH].
           destruct IH as [f F]. { now exists p, q, a. }
           rewrite F. eexists. reflexivity.
    + split; [|intros _; eexists; reflexivity].
      intros _. exists [], (x :: s), a. split; [reflexivity|].
      rewrite E. now left.
Qed.

Lemma Match_true_iff (r : regex) (s : bytes) :
  Match r s = true <-> exists p q a, s = p ++ q /\ In a (exec r q).
Proof.
  rewrite <- find_Some_iff. unfold Match.
  destruct (find r s) as [f|]; split; try discriminate; try reflexivity.
  - intros _. now exists f.
  - intros [f H]. discriminate.
Qed.

Lemma Match_marker (l s : bytes) :
  Match (marker l) s = true <-> contains l s.
Proof.
  rewrite Match_true_iff. unfold marker, contains. split.
  - intros [p [q [a [-> H]]]].
    apply exec_Cat_In in H. destruct H as [a1 [a2 [H1 [H2 _]]]].
    apply exec_Star_In in H1. destruct H1 as [x [r [-> [_ ->]]]].
    cbn [rest] in H2. apply exec_Cat_In in H2.
    destruct H2 as [a3 [a4 [H3 [_ _]]]].
    apply exec_Literal_In in H3. destruct H3 as [r' [-> _]].
    exists (p ++ x), r'. now rewrite <- app_assoc.
  - intros [before [after ->]].
    exists before, (l ++ after).
    exists (seq (At [] [] (l ++ after)) (seq (At l [] after) (At [] [] after))).
    split; [reflexivity|].
    apply exec_Cat_In. do 2 eexists. split; [|split; [|reflexivity]].
    + apply exec_Star_In. exists [], (l ++ after). now repeat split.
    + cbn [rest]. apply exec_Cat_In. do 2 eexists.
      split; [|split; [|reflexivity]].
      * apply exec_Literal_In. now exists after.
      * cbn [rest]. apply exec_Star_In. exists [], after. now repeat split.
Qed.

(** ** The block assembler *)

Lemma pageStart_contains (chunk : bytes) :
  Match pageStartRegex chunk = true <-> contains (b "<page>") chunk.
Proof. apply (Match_marker (b "<page>")). Qed.

Lemma pageEnd_contains (chunk : bytes) :
  Match pageEndRegex chunk = true <-> contains (b "</page>") chunk.
Proof. apply (Match_marker (b "</page>")). Qed.

Lemma step_start (st : assembler) (chunk : bytes) :
  Match pageStartRegex chunk = true ->
  GetRawPages_step st chunk = ({| page := page st; inPage := true |}, []).
Proof. intros H. unfold GetRawPages_step. now rewrite H. Qed.

Lemma step_close (st : assembler) (chunk : bytes) :
  Match pageStartRegex chunk = false ->
  Match pageEndRegex chunk = true ->
  GetRawPages_step st chunk =
  if inPage st
  then ({| page := b "<page>"; inPage := false |}, [page st ++ b "</page>"])
  else ({| page := page st; inPage := false |}, []).
Proof. intros H1 H2. unfold GetRawPages_step. now rewrite H1, H2. Qed.

Lemma step_body (st : assembler) (chunk : bytes) :
  Match pageStartRegex chunk = false ->
  Match pageEndRegex chunk = false ->
  GetRawPages_step st chunk =
  if inPage st
  then ({| page := page st ++ chunk; inPage := true |}, [])
  else (st, []).
Proof.
  intros H1 H2. unfold GetRawPages_step. rewrite H1, H2.
  destruct (inPage st) eqn:E; [|reflexivity]. reflexivity.
Qed.

Lemma assembler_after_app (st : assembler) (l1 l2 : list bytes) :
  assembler_after st (l1 ++ l2) = assembler_after (assembler_after st l1) l2.
Proof. apply fold_left_app. Qed.

Lemma GetRawPages_loop_app (st : assembler) (l1 l2 : list bytes) :
  GetRawPages_loop st (l1 ++ l2) =
  GetRawPages_loop st l1 ++ GetRawPages_loop (assembler_after st l1) l2.
Proof.
  revert st. induction l1 as [|c l1 IH]; intros st; simpl; [reflexivity|].
  destruct (GetRawPages_step st c) as [st' out] eqn:E. simpl.
  now rewrite IH, app_assoc.
Qed.

Lemma step_not_closing (st : assembler) (chunk : bytes) :
  closing chunk = false -> snd (GetRawPages_step st chunk) = [].
Proof.
  unfold closing, GetRawPages_step. intros H.
  destruct (Match pageStartRegex chunk); [reflexivity|].
  destruct (Match pageEndRegex chunk); [discriminate|].
  now destruct (inPage st).
Qed.

Lemma step_outside_silent (st : assembler) (chunk : bytes) :
  inPage st = false -> snd (GetRawPages_step st chunk) = [].
Proof.
  unfold GetRawPages_step. intros H. rewrite H.
  destruct (Match pageStartRegex chunk); [reflexivity|].
  now destruct (Match pageEndRegex chunk).
Qed.

(** Chunks among which none closes a block send nothing. *)
Lemma loop_no_closing (st : assembler) (chunks : list bytes) :
  forallb (fun c => negb (closing c)) chunks = true ->
  GetRawPages_loop st chunks = [].
Proof.
  revert st. induction chunks as [|c l IH]; intros st H; simpl; [reflexivity|].
  simpl in H. apply andb_true_iff in H. destruct H as [Hc Hl].
  apply negb_true_iff in Hc.
  pose proof (step_not_closing st c Hc) as Hs.
  destruct (GetRawPages_step st c) as [st' out]. simpl in Hs. subst out.
  simpl. now apply IH.
Qed.

(** A sequence after which the assembler is inside a page ends with a
    start line followed by chunks that do not close the block. *)
Lemma inside_decompose (st : assembler) (chunks : list bytes) :
  inPage st = false ->
  inPage (assembler_after st chunks) = true ->
  exists done start partial,
    chunks = done ++ start :: partial /\
    inPage (assembler_after st done) = false /\
    Match pageStartRegex start = true /\
    forallb (fun c => negb (closing c)) partial = true.
Proof.
  intros Hst. induction chunks as [|x l IH] using rev_ind; intros H.
  - simpl in H. congruence.
  - rewrite assembler_after_app in H. simpl in H.
    set (st' := assembler_after st l) in *.
    destruct (Match pageStartRegex x) eqn:Hs.
    + destruct (inPage st') eqn:Hin.
      * destruct (IH eq_refl) as [d [s [p [-> [Hd [Hm Hp]]]]]].
        exists d, s, (p ++ [x]). repeat split; try assumption.
        -- now rewrite <- app_assoc.
        -- rewrite forallb_app, Hp. simpl. unfold closing. now rewrite Hs.
      * exists l, x, []. now repeat split.
    + destruct (Match pageEndRegex x) eqn:He.
      * rewrite (step_close _ _ Hs He) in H. now destruct (inPage st').
      * rewrite (step_body _ _ Hs He) in H.
        destruct (inPage st') eqn:Hin; [|simpl in H; congruence].
        destruct (IH eq_refl) as [d [s [p [-> [Hd [Hm Hp]]]]]].
        exists d, s, (p ++ [x]). repeat split; try assumption.
        -- now rewrite <- app_assoc.
        -- rewrite forallb_app, Hp. simpl. unfold closing. now rewrite Hs, He.
Qed.

Lemma start_not_closing (chunk : bytes) :
  Match pageStartRegex chunk = true -> negb (closing chunk) = true.
Proof. intros H. unfold closing. now rewrite H. Qed.

(** Cutting an unclosed tail off the chunks does not change the blocks. *)
Lemma GetRawPages_unclosed_tail (chunks tail : list bytes) :
  forallb (fun c => negb (closing c)) tail = true ->
  GetRawPages (chunks ++ tail) = GetRawPages chunks.
Proof.
  intros H. unfold GetRawPages. rewrite GetRawPages_loop_app.
  rewrite (loop_no_closing _ _ H). apply app_nil_r.
Qed.

Lemma step_gap (chunk : bytes) :
  Match pageStartRegex chunk = false ->
  GetRawPages_step outside chunk = (outside, []).
Proof.
  intros H. unfold GetRawPages_step. rewrite H.
  now destruct (Match pageEndRegex chunk).
Qed.

Lemma loop_gap (gap chunks : list bytes) :
  forallb (fun c => negb (Match pageStartRegex c)) gap = true ->
  GetRawPages_loop outside (gap ++ chunks) = GetRawPages_loop outside chunks.
Proof.
  induction gap as [|c l IH]; intros H; simpl; [reflexivity|].
  simpl in H. apply andb_true_iff in H. destruct H as [Hc Hl].
  apply negb_true_iff in Hc. rewrite (step_gap c Hc). simpl. now apply IH.
Qed.

Lemma loop_body (p : bytes) (body chunks : list bytes) :
  forallb interior body = true ->
  GetRawPages_loop {| page := p; inPage := true |} (body ++ chunks) =
  GetRawPages_loop {| page := p ++ concat body; inPage := true |} chunks.
Proof.
  revert p. induction body as [|c l IH]; intros p H; simpl.
  - now rewrite app_nil_r.
  - simpl in H. apply andb_true_iff in H. destruct H as [Hc Hl].
    unfold interior in Hc. apply andb_true_iff in Hc. destruct Hc as [Hs He].
    apply negb_true_iff in Hs, He.
    rewrite (step_body _ c Hs He). simpl. rewrite (IH _ Hl).
    now rewrite <- app_assoc.
Qed.

Lemma loop_block (bl : block) (chunks : list bytes) :
  well_formed bl = true ->
  GetRawPages_loop outside (block_lines bl ++ chunks) =
  block_raw bl :: GetRawPages_loop outside chunks.
Proof.
  unfold well_formed, block_lines, block_raw. intros H.
  repeat (apply andb_true_iff in H; destruct H as [H ?]).
  rewrite <- app_assoc. rewrite (loop_gap _ _ H). simpl.
  rewrite (step_start _ _ H2). simpl.
  rewrite <- app_assoc. rewrite (loop_body _ _ _ H1). simpl.
  unfold closing in H0. apply andb_true_iff in H0. destruct H0 as [Hs He].
  apply negb_true_iff in Hs. rewrite (step_close _ _ Hs He). simpl.
  reflexivity.
Qed.

Lemma loop_blocks (bls : list block) (chunks : list bytes) :
  forallb well_formed bls = true ->
  GetRawPages_loop outside (concat (map block_lines bls) ++ chunks) =
  map block_raw bls ++ GetRawPages_loop outside chunks.
Proof.
  induction bls as [|bl l IH]; intros H; simpl; [reflexivity|].
  simpl in H. apply andb_true_iff in H. destruct H as [Hb Hl].
  rewrite <- app_assoc. rewrite (loop_block _ _ Hb). now rewrite (IH Hl).
Qed.

(** ** The line source *)

Lemma tokens_length (l : list (option bytes)) : length (tokens l) <= length l.
Proof.
  induction l as [|[t|] l IH]; simpl; lia.
Qed.

Lemma GetChunks_loop_lines (fuel : nat) (lines : list bytes) (st : source) :
  script (scanner st) = map Some lines ->
  sent (GetChunks_loop fuel st) = sent st ++ firstn fuel lines.
Proof.
  revert lines st. induction fuel as [|n IH]; intros lines st H; simpl.
  - now rewrite app_nil_r.
  - unfold Scan. rewrite H. destruct lines as [|t ts]; simpl.
    + destruct (Err (scanner st)).
      * rewrite (IH []); [|assumption]. simpl. now rewrite firstn_nil.
      * simpl. now rewrite app_nil_r.
    + rewrite (IH ts); [|reflexivity]. simpl. unfold Bytes. simpl.
      now rewrite <- app_assoc.
Qed.

(** A reader that ends with [io.EOF]: nothing is logged and [chunks] is
    closed. *)
Lemma GetChunks_loop_eof (fuel : nat) (lines : list bytes) (st : source) :
  script (scanner st) = map Some lines ->
  err (scanner st) = None ->
  length lines < fuel ->
  logged (GetChunks_loop fuel st) = logged st /\
  closed (GetChunks_loop fuel st) = true.
Proof.
  revert lines st.
  induction fuel as [|n IH]; intros lines st Hs He Hf; [lia|]. simpl.
  unfold Scan. rewrite Hs. destruct lines as [|t ts]; simpl.
  - unfold Err. rewrite He. simpl. now split.
  - match goal with
    | |- context [GetChunks_loop n ?s] =>
        destruct (IH ts s eq_refl He) as [H1 H2]
    end; [simpl in Hf; lia|].
    now split.
Qed.

(** A reader that ends with an error: [chunks] is never closed, and every
    iteration in which [Scan] answers false logs once more. *)
Lemma GetChunks_loop_error (e : string) (fuel : nat) (st : source) :
  err (scanner st) = Some e ->
  closed st = false ->
  closed (GetChunks_loop fuel st) = false /\
  sent (GetChunks_loop fuel st) =
  sent st ++ tokens (firstn fuel (script (scanner st))) /\
  logged (GetChunks_loop fuel st) =
  logged st ++ repeat (e ++ " skipping line")%string
                      (fuel - length (tokens (firstn fuel (script (scanner st))))).
Proof.
  revert st. induction fuel as [|n IH]; intros st He Hc; simpl.
  - now rewrite !app_nil_r.
  - unfold Scan. destruct (script (scanner st)) as [|[t|] ts] eqn:E.
    + unfold Err. rewrite He.
      destruct (IH {| scanner := scanner st; sent := sent st;
                      logged := logged st ++ [(e ++ " skipping line")%string];
                      closed := false |} He eq_refl) as [H1 [H2 H3]].
      split; [assumption|]. split.
      * rewrite H2. simpl. rewrite E. now rewrite firstn_nil.
      * rewrite H3. simpl. rewrite E, firstn_nil. simpl.
        rewrite Nat.sub_0_r. now rewrite <- app_assoc.
    + match goal with
      | |- context [GetChunks_loop n ?s] =>
          destruct (IH s He eq_refl) as [H1 [H2 H3]]
      end.
      split; [assumption|]. split.
      * rewrite H2. simpl. unfold Bytes. simpl. now rewrite <- app_assoc.
      * rewrite H3. reflexivity.
    + unfold Err. simpl. rewrite He.
      match goal with
      | |- context [GetChunks_loop n ?s] =>
          destruct (IH s eq_refl eq_refl) as [H1 [H2 H3]]
      end.
      split; [assumption|]. split.
      * rewrite H2. reflexivity.
      * rewrite H3. cbn [scanner script logged]. rewrite <- app_assoc.
        f_equal.
        change (tokens (firstn (S n) (None :: ts)))
          with (tokens (firstn n ts)).
        pose proof (tokens_length (firstn n ts)) as Hl.
        pose proof (firstn_le_length n ts) as Hl'.
        transitivity (repeat (e ++ " skipping line")%string
                        (S (n - length (tokens (firstn n ts)))));
          [reflexivity|].
        f_equal.
        change (S (n - length (tokens (firstn n ts))) =
                S n - length (tokens (firstn n ts))).
        lia.
Qed.

(** ** Links and categories of one page *)

Lemma fold_left_snoc (A B : Type) (f : A -> B) (l : list A) (acc : list B) :
  fold_left (fun acc x => acc ++ [f x]) l acc = acc ++ map f l.
Proof.
  revert acc. induction l as [|x l IH]; intros acc; simpl.
  - now rewrite app_nil_r.
  - rewrite IH. now rewrite <- app_assoc.
Qed.

Lemma GetLinks_page_Links (p : Page) :
  Links (GetLinks_page p) =
  Links p ++ map sub1 (FindAllStringSubmatch linkRegex (Text (Revision p))).
Proof. unfold GetLinks_page. simpl. apply fold_left_snoc. Qed.

Lemma GetCategories_page_Categories (p : Page) :
  Categories (GetCategories_page p) =
  map (fun m => Trim (sub1 m) (b " " ++ [TAB] ++ b "|"))
      (FindAllStringSubmatch categoryRegex (Text (Revision p))).
Proof. reflexivity. Qed.

(** * The line source on a failing reader *)

(** C2.  On a scanner whose reader ends with an error the loop of
    [GetChunks] does not come to an end: however many iterations are run,
    [chunks] is not closed, and every iteration in which [Scan] answers
    false writes the same message to the log again. *)
Theorem read_error_never_closes
  (answers : list (option bytes)) (tok : bytes) (e : string) (fuel : nat) :
  let st :=
    GetChunks fuel {| script := answers; token := tok; err := Some e |} in
  closed st = false /\
  sent st = tokens (firstn fuel answers) /\
  logged st = repeat (e ++ " skipping line")%string
                     (fuel - length (tokens (firstn fuel answers))).
Proof.
  unfold GetChunks. cbv zeta.
  apply (GetChunks_loop_error e fuel
           {| scanner := {| script := answers; token := tok; err := Some e |};
              sent := []; logged := []; closed := false |} eq_refl eq_refl).
Qed.

(** A scanner that delivers the line ["a"] and then fails: after five
    iterations the line has been sent, the message logged four times and
    [chunks] is still open. *)
Example read_error_five_iterations :
  GetChunks 5 {| script := [Some (b "a")]; token := [];
                 err := Some "read error"%string |} =
  {| scanner :=
       {| script := []; token := b "a"; err := Some "read error"%string |};
     sent := [b "a"];
     logged := repeat "read error skipping line"%string 4;
     closed := false |}.
Proof. reflexivity. Qed.

(** * The block assembler *)

(** On the chunks the assembler receives the unfinished block is lost
    without trace: when the chunks end while the assembler is inside a
    page, they split into the chunks before the start line of the
    unfinished block and that block, which holds no closing line, and the
    blocks sent, and so the pages of the stages behind, are those of the
    chunks before it. *)
Theorem truncated_tail_discarded
  (Unmarshal : bytes -> option Page) (chunks : list bytes) :
  inPage (assembler_after outside chunks) = true ->
  exists done start partial,
    chunks = done ++ start :: partial /\
    inPage (assembler_after outside done) = false /\
    Match pageStartRegex start = true /\
    forallb (fun c => negb (closing c)) partial = true /\
    GetRawPages chunks = GetRawPages done /\
    ParseChunks Unmarshal chunks = ParseChunks Unmarshal done /\
    CategorizedParseChunks Unmarshal chunks =
    CategorizedParseChunks Unmarshal done.
Proof.
  intros H.
  destruct (inside_decompose outside chunks eq_refl H)
    as [done [start [partial [E [Hd [Hs Hp]]]]]].
  exists done, start, partial.
  assert (Hraw : GetRawPages chunks = GetRawPages done).
  { rewrite E. apply GetRawPages_unclosed_tail. simpl.
    now rewrite (start_not_closing start Hs). }
  repeat split; try assumption.
  - unfold ParseChunks. now rewrite Hraw.
  - unfold CategorizedParseChunks, ParseChunks. now rewrite Hraw.
Qed.

Lemma truncated_tail_discarded_witness :
  exists done start partial,
    [b "<page>"; b "a"; b "</page>"; b " <page>"; b "b"] =
    done ++ start :: partial /\
    inPage (assembler_after outside done) = false /\
    Match pageStartRegex start = true /\
    forallb (fun c => negb (closing c)) partial = true /\
    GetRawPages [b "<page>"; b "a"; b "</page>"; b " <page>"; b "b"] =
    GetRawPages done /\
    ParseChunks sample_Unmarshal
      [b "<page>"; b "a"; b "</page>"; b " <page>"; b "b"] =
    ParseChunks sample_Unmarshal done /\
    CategorizedParseChunks sample_Unmarshal
      [b "<page>"; b "a"; b "</page>"; b " <page>"; b "b"] =
    CategorizedParseChunks sample_Unmarshal done.
Proof.
  apply (truncated_tail_discarded sample_Unmarshal
           [b "<page>"; b "a"; b "</page>"; b " <page>"; b "b"]).
  vm_compute. reflexivity.
Defined.

Lemma tokens_app (l1 l2 : list (option bytes)) :
  tokens (l1 ++ l2) = tokens l1 ++ tokens l2.
Proof. unfold tokens. apply flat_map_app. Qed.

Lemma tokens_Some (l : list bytes) : tokens (map Some l) = l.
Proof.
  induction l as [|t l IH]; simpl; [reflexivity|]. now rewrite IH.
Qed.

(** C5.  A dump can end in an unfinished block and still have that block
    sent.  When the scanner has delivered chunks that leave the assembler
    inside a page, then answers false with an error, as it does with
    [bufio.ErrTooLong] on a line of 65536 bytes or more, and on the next
    call hands out a token that holds ["</page>"] and not ["<page>"], as
    the first 65536 bytes of such a line may, the loop of [GetChunks]
    sends that token as well and never closes [chunks], and on these
    chunks the assembler closes and sends the unfinished block. *)
Theorem overlong_line_closes_unfinished_block
  (chunks : list bytes) (prefix : bytes) (e : string) (fuel : nat) :
  inPage (assembler_after outside chunks) = true ->
  closing prefix = true ->
  length chunks + 1 < fuel ->
  let st := GetChunks fuel {| script := map Some chunks ++ [None; Some prefix];
                              token := []; err := Some e |} in
  closed st = false /\
  sent st = chunks ++ [prefix] /\
  GetRawPages (chunks ++ [prefix]) =
  GetRawPages chunks ++ [page (assembler_after outside chunks) ++ b "</page>"].
Proof.
  intros Hin Hc Hf. cbv zeta. unfold GetChunks.
  destruct (GetChunks_loop_error e fuel
              {| scanner := {| script := map Some chunks ++ [None; Some prefix];
                               token := []; err := Some e |};
                 sent := []; logged := []; closed := false |}
              eq_refl eq_refl) as [H1 [H2 _]].
  split; [assumption|]. split.
  - rewrite H2. cbn [sent scanner script app].
    rewrite firstn_all2.
    + rewrite tokens_app, tokens_Some. reflexivity.
    + rewrite length_app, length_map. simpl. lia.
  - unfold GetRawPages. fold outside. rewrite GetRawPages_loop_app.
    f_equal. simpl.
    unfold closing in Hc. apply andb_true_iff in Hc. destruct Hc as [Hs He].
    apply negb_true_iff in Hs.
    rewrite (step_close _ prefix Hs He), Hin. reflexivity.
Qed.

Lemma overlong_line_closes_unfinished_block_witness :
  let st := GetChunks 4 {| script := map Some [b "<page>"; b "a"] ++
                                     [None; Some (b "</page>xxxx")];
                           token := [];
                           err := Some "token too long"%string |} in
  closed st = false /\
  sent st = [b "<page>"; b "a"] ++ [b "</page>xxxx"] /\
  GetRawPages ([b "<page>"; b "a"] ++ [b "</page>xxxx"]) =
  GetRawPages [b "<page>"; b "a"] ++
  [page (assembler_after outside [b "<page>"; b "a"]) ++ b "</page>"].
Proof.
  apply (overlong_line_closes_unfinished_block
           [b "<page>"; b "a"] (b "</page>xxxx") "token too long"%string 4).
  - reflexivity.
  - reflexivity.
  - simpl. lia.
Defined.

(** C6, as the claim states it, fails: inside a page the start line
    ["<page>"] is not appended to the block. *)
Lemma start_line_inside_page_not_appended :
  let st := {| page := b "<page>x"; inPage := true |} in
  inPage st = true /\
  Match pageStartRegex (b "<page>") = true /\
  page (fst (GetRawPages_step st (b "<page>"))) <> page st ++ b "<page>" /\
  page (fst (GetRawPages_step st (b "y"))) = page st ++ b "y".
Proof.
  vm_compute. repeat split; discriminate.
Qed.

(** C6, amended.  A line matching the start pattern that arrives inside a
    page leaves the assembler as it is: the line is not appended, the
    block in progress is neither sent nor reset, and the assembler stays
    inside the page. *)
Theorem start_line_inside_page_ignored (st : assembler) (chunk : bytes) :
  Match pageStartRegex chunk = true ->
  inPage st = true ->
  GetRawPages_step st chunk = (st, []).
Proof.
  intros Hs Hin. rewrite (step_start st chunk Hs).
  destruct st as [p i]. simpl in *. now subst.
Qed.

Lemma start_line_inside_page_ignored_witness :
  GetRawPages_step {| page := b "<page>x"; inPage := true |} (b "  <page>") =
  ({| page := b "<page>x"; inPage := true |}, []).
Proof.
  apply (start_line_inside_page_ignored
           {| page := b "<page>x"; inPage := true |} (b "  <page>"));
    reflexivity.
Defined.

(** C10, as the claim states it, fails: a line that contains both markers
    is taken for a start line, so inside a page it closes and sends
    nothing. *)
Lemma end_marker_shadowed_by_start :
  let st := {| page := b "<page>x"; inPage := true |} in
  contains (b "</page>") (b "<page></page>") /\
  GetRawPages_step st (b "<page></page>") = (st, []).
Proof.
  split.
  - exists (b "<page>"), []. reflexivity.
  - reflexivity.
Qed.

(** C10, amended.  Markers are recognised by containment: a chunk matches
    the start pattern exactly when it contains ["<page>"] and the end
    pattern exactly when it contains ["</page>"].  A chunk containing
    ["<page>"] puts the assembler inside a page; a chunk containing
    ["</page>"] and not ["<page>"] closes and sends the current block when
    the assembler is inside a page, and sends nothing otherwise. *)
Theorem markers_by_containment (st : assembler) (chunk : bytes) :
  (Match pageStartRegex chunk = true <-> contains (b "<page>") chunk) /\
  (Match pageEndRegex chunk = true <-> contains (b "</page>") chunk) /\
  (contains (b "<page>") chunk ->
   GetRawPages_step st chunk = ({| page := page st; inPage := true |}, [])) /\
  (contains (b "</page>") chunk -> ~ contains (b "<page>") chunk ->
   inPage st = true ->
   GetRawPages_step st chunk =
   ({| page := b "<page>"; inPage := false |}, [page st ++ b "</page>"])) /\
  (contains (b "</page>") chunk -> ~ contains (b "<page>") chunk ->
   inPage st = false ->
   GetRawPages_step st chunk = ({| page := page st; inPage := false |}, [])).
Proof.
  split; [apply pageStart_contains|].
  split; [apply pageEnd_contains|].
  split; [|split].
  - intros H. apply pageStart_contains in H. now apply step_start.
  - intros He Hs Hin. apply pageEnd_contains in He.
    rewrite <- pageStart_contains in Hs. apply not_true_is_false in Hs.
    rewrite (step_close st chunk Hs He). now rewrite Hin.
  - intros He Hs Hin. apply pageEnd_contains in He.
    rewrite <- pageStart_contains in Hs. apply not_true_is_false in Hs.
    rewrite (step_close st chunk Hs He). now rewrite Hin.
Qed.

Lemma markers_by_containment_witness :
  GetRawPages_step {| page := b "<page>x"; inPage := true |}
                   (b "text with </page> in it") =
  ({| page := b "<page>"; inPage := false |}, [b "<page>x</page>"]).
Proof.
  destruct (markers_by_containment {| page := b "<page>x"; inPage := true |}
                                   (b "text with </page> in it"))
    as [Hs [_ [_ [H _]]]].
  apply H.
  - exists (b "text with "), (b " in it"). reflexivity.
  - intros Hc. apply Hs in Hc. vm_compute in Hc. discriminate.
  - reflexivity.
Defined.

(** * Running the extraction again *)

(** C3, as the claim states it, fails: on a page with the text ["[[A]]"]
    a second run of both extractions leaves the link twice. *)
Lemma rerun_duplicates_links :
  let p1 := GetCategories_page (GetLinks_page (page_of_text (b "[[A]]"))) in
  let p2 := GetCategories_page (GetLinks_page p1) in
  Links p1 = [b "A"] /\ Links p2 = [b "A"; b "A"] /\ Links p2 <> Links p1.
Proof.
  vm_compute. repeat split. discriminate.
Qed.

(** C3, amended.  A second run of link and category extraction on the
    enriched page, the text unchanged, yields the same categories and
    leaves title and revision alone, and it appends the links of the text
    once more to the links the first run left. *)
Theorem rerun_extraction (p : Page) :
  let found := map sub1 (FindAllStringSubmatch linkRegex (Text (Revision p))) in
  let p1 := GetCategories_page (GetLinks_page p) in
  let p2 := GetCategories_page (GetLinks_page p1) in
  Categories p2 = Categories p1 /\
  Title p2 = Title p1 /\
  Revision p2 = Revision p1 /\
  Links p1 = Links p ++ found /\
  Links p2 = Links p1 ++ found.
Proof.
  cbv zeta. repeat split.
  - apply (GetLinks_page_Links p).
  - apply (GetLinks_page_Links (GetCategories_page (GetLinks_page p))).
Qed.

(** * The decoder and the order of pages *)

Section Decoder.

Variable Unmarshal : bytes -> option Page.

Lemma GetPages_app (l1 l2 : list bytes) :
  GetPages Unmarshal (l1 ++ l2) =
  GetPages Unmarshal l1 ++ GetPages Unmarshal l2.
Proof. unfold GetPages. apply flat_map_app. Qed.

Lemma GetPages_decoded (rawPages : list bytes) (pages : list Page) :
  Forall2 (fun raw p => Unmarshal raw = Some p) rawPages pages ->
  GetPages Unmarshal rawPages = pages.
Proof.
  induction 1 as [|raw p l l' H _ IH]; simpl; [reflexivity|].
  rewrite H. simpl. now rewrite IH.
Qed.

Lemma FilterRedirects_keeps (rawPages : list bytes) :
  Forall (fun raw => Find redirectRegex raw = None) rawPages ->
  FilterRedirects rawPages = rawPages.
Proof.
  induction 1 as [|raw l H _ IH]; simpl; [reflexivity|].
  rewrite H. now rewrite IH.
Qed.

(** C8.  A block that fails to decode sends no page and nothing else:
    with every other block decoding, the pages sent are those of the
    blocks before it followed by those of the blocks after it, one fewer
    than there are blocks, and the link extractor passes on as many. *)
Theorem malformed_block_isolated
  (before after : list bytes) (bad : bytes) (pages1 pages2 : list Page) :
  Unmarshal bad = None ->
  Forall2 (fun raw p => Unmarshal raw = Some p) before pages1 ->
  Forall2 (fun raw p => Unmarshal raw = Some p) after pages2 ->
  GetPages Unmarshal [bad] = [] /\
  GetPages Unmarshal (before ++ bad :: after) = pages1 ++ pages2 /\
  length (GetPages Unmarshal (before ++ bad :: after)) =
  length (before ++ bad :: after) - 1 /\
  length (GetLinks (GetPages Unmarshal (before ++ bad :: after))) =
  length (before ++ bad :: after) - 1.
Proof.
  intros Hbad H1 H2.
  assert (E : GetPages Unmarshal (before ++ bad :: after) = pages1 ++ pages2).
  { rewrite GetPages_app. simpl. rewrite Hbad. simpl.
    now rewrite (GetPages_decoded _ _ H1), (GetPages_decoded _ _ H2). }
  assert (L : length (pages1 ++ pages2) = length (before ++ bad :: after) - 1).
  { rewrite !length_app. simpl.
    rewrite (Forall2_length H1), (Forall2_length H2). lia. }
  split; [simpl; now rewrite Hbad|].
  split; [assumption|]. rewrite E.
  split; [assumption|]. unfold GetLinks. now rewrite length_map.
Qed.

End Decoder.

Lemma malformed_block_isolated_witness :
  GetPages sample_Unmarshal [[]] = [] /\
  GetPages sample_Unmarshal
    ([b "<page>a</page>"] ++ [] :: [b "<page>c</page>"]) =
  [page_of_text (b "<page>a</page>")] ++ [page_of_text (b "<page>c</page>")] /\
  length (GetPages sample_Unmarshal
            ([b "<page>a</page>"] ++ [] :: [b "<page>c</page>"])) =
  length ([b "<page>a</page>"] ++ [] :: [b "<page>c</page>"]) - 1 /\
  length (GetLinks (GetPages sample_Unmarshal
            ([b "<page>a</page>"] ++ [] :: [b "<page>c</page>"]))) =
  length ([b "<page>a</page>"] ++ [] :: [b "<page>c</page>"]) - 1.
Proof.
  apply (malformed_block_isolated sample_Unmarshal
           [b "<page>a</page>"] [b "<page>c</page>"] []
           [page_of_text (b "<page>a</page>")]
           [page_of_text (b "<page>c</page>")]).
  - reflexivity.
  - repeat constructor.
  - repeat constructor.
Defined.

(** * The redirect filter *)

Lemma dot_run (x : bytes) :
  forallb (in_class Dot) x = true <-> ~ In NL x.
Proof.
  induction x as [|c x IH]; simpl.
  - split; [intros _ []|reflexivity].
  - rewrite andb_true_iff, IH, negb_true_iff, byte_eqb_neq. split.
    + intros [H1 H2] [H|H]; [now apply H1|now apply H2].
    + intros H. split; intros H'; apply H; [now left|now right].
Qed.

Lemma Find_not_None (r : regex) (s : bytes) :
  Find r s <> None <-> exists p q a, s = p ++ q /\ In a (exec r q).
Proof.
  rewrite <- find_Some_iff. unfold Find.
  destruct (find r s) as [f|]; simpl; split.
  - intros _. now exists f.
  - intros _. discriminate.
  - intros H. now elim H.
  - intros [f H]. discriminate.
Qed.

Lemma redirectRegex_directive (rawPage : bytes) :
  Find redirectRegex rawPage <> None <-> redirect_directive rawPage.
Proof.
  rewrite Find_not_None. unfold redirectRegex, redirect_directive. split.
  - intros [p [q [a [-> H]]]].
    apply exec_Cat_In in H. destruct H as [a1 [a2 [H1 [H _]]]].
    apply exec_Literal_In in H1. destruct H1 as [r1 [-> ->]]. cbn [rest] in H.
    apply exec_Cat_In in H. destruct H as [a3 [a4 [H3 [H _]]]].
    apply exec_Cls_In in H3. destruct H3 as [sp [r3 [-> [Hsp ->]]]].
    cbn [rest] in H.
    apply exec_Cat_In in H. destruct H as [a5 [a6 [H5 [H _]]]].
    apply exec_Star_In in H5. destruct H5 as [x5 [r5 [-> [Hx5 ->]]]].
    cbn [rest] in H.
    apply exec_Cat_In in H. destruct H as [a7 [a8 [H7 [H _]]]].
    apply exec_Literal_In in H7. destruct H7 as [r7 [-> ->]]. cbn [rest] in H.
    apply exec_Cat_In in H. destruct H as [a9 [a10 [H9 [H _]]]].
    apply exec_Star_In in H9. destruct H9 as [x9 [r9 [-> [Hx9 ->]]]].
    cbn [rest] in H.
    apply exec_Literal_In in H. destruct H as [r11 [-> _]].
    exists p, sp, x5, x9, r11. split; [reflexivity|].
    split; [|split; now apply dot_run].
    simpl in Hsp. unfold mem in Hsp. simpl in Hsp.
    rewrite orb_false_r in Hsp. apply orb_true_iff in Hsp.
    destruct Hsp as [Hsp|Hsp]; apply byte_eqb_eq in Hsp; [now left|now right].
  - intros [before [sp [between [target [after [-> [Hsp [Hb Ht]]]]]]]].
    apply dot_run in Hb, Ht.
    exists before. eexists. eexists. split; [reflexivity|].
    apply exec_Cat_In. do 2 eexists. split; [|split; [|reflexivity]].
    { apply exec_Literal_In. eexists. split; reflexivity. }
    cbn [rest]. apply exec_Cat_In. do 2 eexists.
    split; [|split; [|reflexivity]].
    { apply exec_Cls_In. exists sp. eexists. split; [reflexivity|].
      split; [|reflexivity].
      destruct Hsp as [-> | ->]; reflexivity. }
    cbn [rest]. apply exec_Cat_In. do 2 eexists.
    split; [|split; [|reflexivity]].
    { apply exec_Star_In. exists between. eexists. split; [reflexivity|].
      split; [assumption|reflexivity]. }
    cbn [rest]. apply exec_Cat_In. do 2 eexists.
    split; [|split; [|reflexivity]].
    { apply exec_Literal_In. eexists. split; reflexivity. }
    cbn [rest]. apply exec_Cat_In. do 2 eexists.
    split; [|split; [|reflexivity]].
    { apply exec_Star_In. exists target. eexists. split; [reflexivity|].
      split; [assumption|reflexivity]. }
    cbn [rest]. apply exec_Literal_In. eexists. split; reflexivity.
Qed.

Lemma FilterRedirects_app (l1 l2 : list bytes) :
  FilterRedirects (l1 ++ l2) = FilterRedirects l1 ++ FilterRedirects l2.
Proof. unfold FilterRedirects. apply filter_app. Qed.

Lemma FilterRedirects_one (rawPage : bytes) :
  (redirect_directive rawPage -> FilterRedirects [rawPage] = []) /\
  (~ redirect_directive rawPage -> FilterRedirects [rawPage] = [rawPage]).
Proof.
  pose proof (redirectRegex_directive rawPage) as H. simpl.
  destruct (Find redirectRegex rawPage) as [m|].
  - split; [reflexivity|]. intros Hn. elim Hn. apply H. discriminate.
  - split; [|reflexivity]. intros Hd. apply H in Hd. now elim Hd.
Qed.

(** C4, as the claim states it, fails: the block ["#REDIRECT[[Target]]"]
    holds the directive followed by a bracketed target, and the filter
    sends it on. *)
Lemma redirect_without_space_kept :
  redirect_directive_spec (b "#REDIRECT[[Target]]") /\
  FilterRedirects [b "#REDIRECT[[Target]]"] = [b "#REDIRECT[[Target]]"].
Proof.
  split.
  - exists [], [], (b "Target"), []. reflexivity.
  - reflexivity.
Qed.

(** C4, amended.  The filter drops a block if and only if the block
    contains ["#REDIRECT"], case-sensitive, followed at once by a space or
    a tab and then, on the same line, by a target between double brackets.
    Every other block is sent on unchanged and in its place; in
    particular a block containing ["#REDIRECT [[Target]]"] is never sent. *)
Theorem redirect_filter (rawPages more : list bytes) (rawPage : bytes) :
  (Find redirectRegex rawPage <> None <-> redirect_directive rawPage) /\
  (redirect_directive rawPage -> FilterRedirects [rawPage] = []) /\
  (~ redirect_directive rawPage -> FilterRedirects [rawPage] = [rawPage]) /\
  FilterRedirects (rawPages ++ more) =
  FilterRedirects rawPages ++ FilterRedirects more /\
  (In rawPage (FilterRedirects rawPages) <->
   In rawPage rawPages /\ ~ redirect_directive rawPage) /\
  (forall before target after,
     ~ In NL target ->
     rawPage = before ++ b "#REDIRECT [[" ++ target ++ b "]]" ++ after ->
     ~ In rawPage (FilterRedirects rawPages)).
Proof.
  split; [apply redirectRegex_directive|].
  split; [apply FilterRedirects_one|].
  split; [apply FilterRedirects_one|].
  split; [apply FilterRedirects_app|].
  assert (Hin : In rawPage (FilterRedirects rawPages) <->
                In rawPage rawPages /\ ~ redirect_directive rawPage).
  { unfold FilterRedirects. rewrite filter_In.
    rewrite <- redirectRegex_directive.
    destruct (Find redirectRegex rawPage) as [m|]; split.
    - intros [_ H]. discriminate.
    - intros [_ H]. elim H. discriminate.
    - intros [H _]. split; [assumption|]. intros H'. now apply H'.
    - intros [H _]. now split. }
  split; [assumption|].
  intros before target after Ht -> H. apply Hin in H. destruct H as [_ H].
  apply H. exists before, " "%byte, [], target, after.
  split; [reflexivity|]. split; [now left|]. split; [intros []|assumption].
Qed.

Lemma redirect_filter_witness :
  FilterRedirects [b "<page><text>#REDIRECT [[Target]]</text></page>"] = [].
Proof.
  destruct (redirect_filter [] []
              (b "<page><text>#REDIRECT [[Target]]</text></page>"))
    as [_ [H _]].
  apply H.
  exists (b "<page><text>"), " "%byte, [], (b "Target"), (b "</text></page>").
  split; [reflexivity|]. split; [now left|].
  split; [intros []|]. intros Hn. apply mem_In in Hn. vm_compute in Hn.
  discriminate.
Defined.

(** * The order of the pages *)

(** C7, as the claim states it, fails: the page of [prose_block] is well
    formed and decodes, and the redirect pattern finds nothing in its
    text as it stands in the dump, one line under the other; its block,
    the lines joined, is dropped as a redirect and no page is sent. *)
Lemma prose_page_dropped_as_redirect :
  well_formed prose_block = true /\
  Find redirectRegex
    (b "<text>write #REDIRECT on top" ++ [NL] ++ b "as in [[Help]]</text>") =
  None /\
  sample_Unmarshal (block_raw prose_block) =
  Some (page_of_text (block_raw prose_block)) /\
  ParseChunks sample_Unmarshal (block_lines prose_block) = [] /\
  ParseChunks sample_Unmarshal (block_lines prose_block) <>
  [GetLinks_page (page_of_text (block_raw prose_block))].
Proof.
  vm_compute. repeat split. discriminate.
Qed.

Section Order.

Variable Unmarshal : bytes -> option Page.

Lemma no_directive_no_match (rawPage : bytes) :
  ~ redirect_directive rawPage -> Find redirectRegex rawPage = None.
Proof.
  intros H. destruct (Find redirectRegex rawPage) as [m|] eqn:E;
    [|reflexivity].
  elim H. apply redirectRegex_directive. rewrite E. discriminate.
Qed.

(** C7, amended.  For received lines made of well-formed page blocks,
    where no block, its interior lines joined between ["<page>"] and
    ["</page>"], holds the redirect directive and each such block decodes
    to a page, the stages behind the line source send exactly the decoded
    pages with their links added, in the order of the blocks, and in the
    categorized variant the same pages with their categories set as
    well. *)
Theorem pipeline_preserves_order
  (blocks : list block) (pages : list Page) (trailer : list bytes) :
  forallb well_formed blocks = true ->
  forallb (fun c => negb (Match pageStartRegex c)) trailer = true ->
  Forall2 (fun bl p => ~ redirect_directive (block_raw bl) /\
                       Unmarshal (block_raw bl) = Some p) blocks pages ->
  let chunks := concat (map block_lines blocks) ++ trailer in
  GetRawPages chunks = map block_raw blocks /\
  ParseChunks Unmarshal chunks = map GetLinks_page pages /\
  CategorizedParseChunks Unmarshal chunks =
  map (fun p => GetCategories_page (GetLinks_page p)) pages.
Proof.
  intros Hwf Htr Hall. cbv zeta.
  assert (R : GetRawPages (concat (map block_lines blocks) ++ trailer) =
              map block_raw blocks).
  { unfold GetRawPages. fold outside. rewrite (loop_blocks _ _ Hwf).
    rewrite <- (app_nil_r trailer), (loop_gap _ _ Htr). simpl.
    apply app_nil_r. }
  assert (E : ParseChunks Unmarshal
                (concat (map block_lines blocks) ++ trailer)
              = map GetLinks_page pages).
  { unfold ParseChunks. rewrite R. rewrite FilterRedirects_keeps.
    - rewrite (GetPages_decoded Unmarshal (map block_raw blocks) pages);
        [reflexivity|].
      clear Hwf R.
      induction Hall as [|bl p l l' [_ H] _ IH]; simpl; constructor;
        assumption.
    - clear Hwf R.
      induction Hall as [|bl p l l' [H _] _ IH]; simpl; constructor;
        [now apply no_directive_no_match|assumption]. }
  split; [assumption|]. split; [assumption|].
  unfold CategorizedParseChunks. rewrite E.
  unfold GetCategories. now rewrite map_map.
Qed.

End Order.

Lemma no_directive_sample (rawPage : bytes) :
  Find redirectRegex rawPage = None -> ~ redirect_directive rawPage.
Proof.
  intros E H. apply redirectRegex_directive in H. now apply H.
Qed.

Lemma pipeline_preserves_order_witness :
  let chunks :=
    concat (map block_lines sample_blocks) ++ [b "</mediawiki>"] in
  GetRawPages chunks = map block_raw sample_blocks /\
  ParseChunks sample_Unmarshal chunks =
  map GetLinks_page
    [page_of_text (b "<page><title>One</title>[[Two]] and [[Three]]</page>");
     page_of_text (b "<page><title>Two</title>[[Category:Numbers]]</page>")] /\
  CategorizedParseChunks sample_Unmarshal chunks =
  map (fun p => GetCategories_page (GetLinks_page p))
    [page_of_text (b "<page><title>One</title>[[Two]] and [[Three]]</page>");
     page_of_text (b "<page><title>Two</title>[[Category:Numbers]]</page>")].
Proof.
  apply (pipeline_preserves_order sample_Unmarshal sample_blocks
    [page_of_text (b "<page><title>One</title>[[Two]] and [[Three]]</page>");
     page_of_text (b "<page><title>Two</title>[[Category:Numbers]]</page>")]
    [b "</mediawiki>"]).
  - vm_compute. reflexivity.
  - vm_compute. reflexivity.
  - repeat constructor; apply no_directive_sample; reflexivity.
Defined.

(** * Successive matches *)

Lemma exec_sound (r : regex) (s : bytes) (a : attempt) :
  In a (exec r s) -> s = text a ++ rest a.
Proof.
  revert s a. induction r as [l|c|c g|c g|r1 IH1 r2 IH2|r IH]; intros s a H.
  - apply exec_Literal_In in H. destruct H as [r [-> ->]]. reflexivity.
  - apply exec_Cls_In in H. destruct H as [x [r [-> [_ ->]]]]. reflexivity.
  - apply exec_Star_In in H. destruct H as [x [r [-> [_ ->]]]]. reflexivity.
  - simpl in H. destruct s as [|x s]; [destruct H|].
    destruct (in_class c x); [|destruct H].
    rewrite map_map in H. apply in_map_iff in H.
    destruct H as [[y z] [<- H]]. apply runs_In in H. destruct H as [-> _].
    reflexivity.
  - apply exec_Cat_In in H. destruct H as [a1 [a2 [H1 [H2 ->]]]].
    apply IH1 in H1. apply IH2 in H2. simpl. rewrite <- app_assoc.
    now rewrite <- H2.
  - simpl in H. apply in_map_iff in H. destruct H as [a' [<- H]].
    apply IH in H. exact H.
Qed.

Lemma find_sound (r : regex) (s : bytes) (f : found) :
  find r s = Some f ->
  s = skipped f ++ text (hit f) ++ rest (hit f) /\
  exists more, exec r (text (hit f) ++ rest (hit f)) = hit f :: more.
Proof.
  revert f. induction s as [|x s IH]; intros f; simpl.
  - destruct (exec r []) as [|a l] eqn:E; [discriminate|].
    intros H. inversion H; subst. simpl.
    assert (Ha : [] = text a ++ rest a).
    { apply (exec_sound r). rewrite E. now left. }
    split; [assumption|]. rewrite <- Ha, E. now exists l.
  - destruct (exec r (x :: s)) as [|a l] eqn:E.
    + destruct (find r s) as [f'|]; [|discriminate].
      intros H. inversion H; subst. simpl.
      destruct (IH f' eq_refl) as [H1 H2]. split; [|assumption].
      now rewrite <- H1.
    + intros H. inversion H; subst. simpl.
      assert (Ha : x :: s = text a ++ rest a).
      { apply (exec_sound r). rewrite E. now left. }
      split; [assumption|]. rewrite <- Ha, E. now exists l.
Qed.

Lemma find_shorter (r : regex) (s : bytes) (f : found) :
  never_empty r -> find r s = Some f -> length (rest (hit f)) < length s.
Proof.
  intros Hne H. destruct (find_sound r s f H) as [E [more Hm]].
  assert (Ht : text (hit f) <> []).
  { apply (Hne (text (hit f) ++ rest (hit f))). rewrite Hm. now left. }
  apply (f_equal (@length byte)) in E. rewrite !length_app in E.
  destruct (text (hit f)); [congruence|]. simpl in E. lia.
Qed.

Lemma allMatches_fuel (r : regex) :
  never_empty r ->
  forall n fuel1 fuel2 s adj1 adj2,
    length s < n -> length s < fuel1 -> length s < fuel2 ->
    allMatches fuel1 r s adj1 = allMatches fuel2 r s adj2.
Proof.
  intros Hne. induction n as [|n IH]; intros fuel1 fuel2 s adj1 adj2 Hn H1 H2.
  - lia.
  - destruct fuel1 as [|fuel1]; [lia|]. destruct fuel2 as [|fuel2]; [lia|].
    simpl. destruct (find r s) as [f|] eqn:F; [|reflexivity].
    pose proof (find_shorter r s f Hne F) as Hlt.
    destruct (find_sound r s f F) as [_ [more Hm]].
    assert (Ht : text (hit f) <> []).
    { apply (Hne (text (hit f) ++ rest (hit f))). rewrite Hm. now left. }
    destruct (text (hit f)) as [|c t] eqn:Et; [congruence|].
    simpl. rewrite andb_false_r. f_equal. apply IH; lia.
Qed.

(** Successive matches of a pattern that never matches the empty text:
    the leftmost match, then the matches of what follows it. *)
Lemma FindAll_step (r : regex) (s : bytes) :
  never_empty r ->
  FindAllStringSubmatch r s =
  match find r s with
  | None => []
  | Some f =>
      (text (hit f) :: caps (hit f)) ::
      FindAllStringSubmatch r (rest (hit f))
  end.
Proof.
  intros Hne. unfold FindAllStringSubmatch at 1. simpl.
  destruct (find r s) as [f|] eqn:F; [|reflexivity].
  pose proof (find_shorter r s f Hne F) as Hlt.
  destruct (find_sound r s f F) as [_ [more Hm]].
  assert (Ht : text (hit f) <> []).
  { apply (Hne (text (hit f) ++ rest (hit f))). rewrite Hm. now left. }
  destruct (text (hit f)) as [|c t] eqn:Et; [congruence|].
  simpl. rewrite andb_false_r. f_equal. unfold FindAllStringSubmatch.
  apply (allMatches_fuel r Hne (S (length s))); lia.
Qed.

(** * Bracketed references *)

Lemma flat_map_map (A B C : Type) (f : B -> list C) (g : A -> B) (l : list A) :
  flat_map f (map g l) = flat_map (fun x => f (g x)) l.
Proof.
  induction l as [|x l IH]; simpl; [reflexivity|]. now rewrite IH.
Qed.

Lemma map_flat_map (A B C : Type) (f : B -> C) (g : A -> list B) (l : list A) :
  map f (flat_map g l) = flat_map (fun x => map f (g x)) l.
Proof.
  induction l as [|x l IH]; simpl; [reflexivity|].
  now rewrite map_app, IH.
Qed.

Lemma needs_close_consume (A : Type) (F : bytes * bytes -> list A) (c : byte) :
  needs_close A F -> needs_close A (fun sp => F (consume c sp)).
Proof. intros H x y1 y2 Hy. unfold consume. simpl. now apply H. Qed.

(** The shortest run that reaches the closing brackets is tried first
    among those that succeed. *)
Lemma runs_lazy_first (A : Type) (p : byte -> bool)
  (F : bytes * bytes -> list A) (t Y : bytes) :
  needs_close A F ->
  forallb p t = true ->
  mem "]"%byte t = false ->
  exists more, flat_map F (runs_lazy p (t ++ Y)) = F (t, Y) ++ more.
Proof.
  revert F. induction t as [|c t IH]; intros F HF Hp Hb.
  - simpl. destruct Y as [|y Y]; simpl; eexists; reflexivity.
  - simpl in Hp. apply andb_true_iff in Hp. destruct Hp as [Hc Hp].
    unfold mem in Hb. simpl in Hb. apply orb_false_iff in Hb.
    destruct Hb as [Hcb Hb].
    simpl. rewrite Hc. rewrite (HF [] c (t ++ Y)).
    + simpl. rewrite flat_map_map.
      destruct (IH (fun sp => F (consume c sp))
                   (needs_close_consume A F c HF) Hp Hb) as [more E].
      exists more. rewrite E. reflexivity.
    + intros ->. simpl in Hcb. discriminate.
Qed.

(** A run that meets a byte outside the class before any closing bracket
    never succeeds. *)
Lemma runs_lazy_blocked (A : Type) (p : byte -> bool)
  (F : bytes * bytes -> list A) (u : bytes) (z : byte) (W : bytes) :
  needs_close A F ->
  mem "]"%byte u = false ->
  z <> "]"%byte ->
  p z = false ->
  flat_map F (runs_lazy p (u ++ z :: W)) = [].
Proof.
  revert F. induction u as [|c u IH]; intros F HF Hb Hz Hp.
  - simpl. rewrite Hp. simpl. rewrite (HF [] z W Hz). reflexivity.
  - unfold mem in Hb. simpl in Hb. apply orb_false_iff in Hb.
    destruct Hb as [Hcb Hb].
    simpl. rewrite (HF [] c (u ++ z :: W)).
    + simpl. destruct (p c); [|reflexivity].
      rewrite flat_map_map.
      apply (IH (fun sp => F (consume c sp))); try assumption.
      now apply needs_close_consume.
    + intros ->. simpl in Hcb. discriminate.
Qed.

Lemma exec_bracketed_no_prefix (prefix : bytes) (cls : class) (s : bytes) :
  strip_prefix (b "[[" ++ prefix) s = None ->
  exec (bracketed prefix cls) s = [].
Proof.
  intros H. unfold bracketed. cbn [exec]. now rewrite H.
Qed.

Lemma exec_bracketed_runs
  (prefix : bytes) (cls : class) (c : byte) (s : bytes) :
  exec (bracketed prefix cls) ((b "[[" ++ prefix) ++ c :: s) =
  if in_class cls c
  then flat_map (close_after prefix c) (runs_lazy (in_class cls) s)
  else [].
Proof.
  unfold bracketed. cbn [exec]. rewrite strip_prefix_app.
  cbn [flat_map rest]. rewrite app_nil_r.
  destruct (in_class cls c); [|reflexivity].
  unfold runs. rewrite !map_map, flat_map_map, map_flat_map.
  apply flat_map_ext. intros [x y]. unfold close_after. cbn.
  destruct (strip_prefix (b "]]") y); reflexivity.
Qed.

Lemma needs_close_close_after (prefix : bytes) (c : byte) :
  needs_close attempt (close_after prefix c).
Proof.
  intros x y1 y2 Hy. unfold close_after, b. cbn.
  apply byte_eqb_neq in Hy. now rewrite Hy.
Qed.

(** On a reference whose target is a run of the class without closing
    bracket, the preferred attempt captures the target. *)
Lemma exec_bracketed_hit (prefix : bytes) (cls : class) (t after : bytes) :
  t <> [] ->
  forallb (in_class cls) t = true ->
  mem "]"%byte t = false ->
  exists more,
    exec (bracketed prefix cls) ((b "[[" ++ prefix) ++ t ++ b "]]" ++ after) =
    At ((b "[[" ++ prefix) ++ t ++ b "]]") [t] after :: more.
Proof.
  intros Hne Hp Hb. destruct t as [|c t]; [congruence|].
  simpl in Hp. apply andb_true_iff in Hp. destruct Hp as [Hc Hp].
  unfold mem in Hb. simpl in Hb. apply orb_false_iff in Hb.
  destruct Hb as [_ Hb].
  change ((c :: t) ++ b "]]" ++ after) with (c :: t ++ b "]]" ++ after).
  rewrite exec_bracketed_runs, Hc.
  destruct (runs_lazy_first attempt (in_class cls) (close_after prefix c)
              t (b "]]" ++ after) (needs_close_close_after prefix c) Hp Hb)
    as [more E].
  rewrite E. unfold close_after at 1. cbn [snd fst].
  rewrite strip_prefix_app. simpl. now exists more.
Qed.

(** On a reference whose target leaves the class before any closing
    bracket there is no attempt. *)
Lemma exec_bracketed_blocked
  (prefix : bytes) (cls : class) (u : bytes) (z : byte) (W : bytes) :
  mem "]"%byte u = false ->
  z <> "]"%byte ->
  in_class cls z = false ->
  exec (bracketed prefix cls) ((b "[[" ++ prefix) ++ u ++ z :: W) = [].
Proof.
  intros Hb Hz Hp. destruct u as [|c u].
  - change ([] ++ z :: W) with (z :: W).
    now rewrite exec_bracketed_runs, Hp.
  - unfold mem in Hb. simpl in Hb. apply orb_false_iff in Hb.
    destruct Hb as [_ Hb].
    change ((c :: u) ++ z :: W) with (c :: u ++ z :: W).
    rewrite exec_bracketed_runs. destruct (in_class cls c); [|reflexivity].
    apply runs_lazy_blocked; try assumption.
    apply needs_close_close_after.
Qed.

Lemma never_empty_bracketed (prefix : bytes) (cls : class) :
  never_empty (bracketed prefix cls).
Proof.
  intros s a H. unfold bracketed in H.
  apply exec_Cat_In in H. destruct H as [a1 [a2 [H1 [_ ->]]]].
  apply exec_Literal_In in H1. destruct H1 as [r [_ ->]].
  unfold b. simpl. discriminate.
Qed.

Lemma find_head (r : regex) (s : bytes) (a : attempt) (more : list attempt) :
  exec r s = a :: more -> find r s = Some (Found [] a).
Proof. intros H. destruct s; simpl; now rewrite H. Qed.

Lemma find_miss (r : regex) (x : byte) (s : bytes) :
  exec r (x :: s) = [] -> find r (x :: s) = option_map (skip x) (find r s).
Proof. intros H. simpl. now rewrite H. Qed.

Lemma strip_brackets_other (prefix : bytes) (c : byte) (s : bytes) :
  c <> "["%byte -> strip_prefix (b "[[" ++ prefix) (c :: s) = None.
Proof.
  intros H. unfold b. simpl. apply byte_eqb_neq in H. now rewrite H.
Qed.

Lemma strip_brackets_second (prefix : bytes) (c : byte) (s : bytes) :
  c <> "["%byte ->
  strip_prefix (b "[[" ++ prefix) ("["%byte :: c :: s) = None.
Proof.
  intros H. unfold b. simpl. apply byte_eqb_neq in H. now rewrite H.
Qed.

Section Bracketed.

Variable prefix : bytes.
Variable cls : class.

Local Abbreviation R := (bracketed prefix cls).

(** The first match behind a stretch without opening bracket. *)
Lemma find_skip_plain (p s : bytes) :
  mem "["%byte p = false ->
  option_map hit (find R (p ++ s)) = option_map hit (find R s).
Proof.
  induction p as [|c p IH]; intros H; [reflexivity|].
  unfold mem in H. simpl in H. apply orb_false_iff in H.
  destruct H as [Hc Hp]. simpl app.
  rewrite find_miss.
  - rewrite <- (IH Hp). now destruct (find R (p ++ s)).
  - apply exec_bracketed_no_prefix. apply strip_brackets_other.
    intros ->. simpl in Hc. discriminate.
Qed.

Lemma FindAll_hit (s : bytes) :
  FindAllStringSubmatch R s =
  match option_map hit (find R s) with
  | None => []
  | Some a => (text a :: caps a) :: FindAllStringSubmatch R (rest a)
  end.
Proof.
  rewrite (FindAll_step R s (never_empty_bracketed prefix cls)).
  now destruct (find R s).
Qed.

Lemma FindAll_skip_plain (p s : bytes) :
  mem "["%byte p = false ->
  FindAllStringSubmatch R (p ++ s) = FindAllStringSubmatch R s.
Proof.
  intros H. rewrite (FindAll_hit (p ++ s)), (FindAll_hit s).
  now rewrite (find_skip_plain p s H).
Qed.

Lemma FindAll_first (s : bytes) (a : attempt) (more : list attempt) :
  exec R s = a :: more ->
  FindAllStringSubmatch R s =
  (text a :: caps a) :: FindAllStringSubmatch R (rest a).
Proof.
  intros H. rewrite (FindAll_hit s). now rewrite (find_head R s a more H).
Qed.

(** A reference at which the pattern has no attempt is passed over. *)
Lemma FindAll_skip_ref (t after : bytes) :
  t <> [] ->
  mem "["%byte t = false ->
  exec R (b "[[" ++ t ++ b "]]" ++ after) = [] ->
  FindAllStringSubmatch R (b "[[" ++ t ++ b "]]" ++ after) =
  FindAllStringSubmatch R after.
Proof.
  intros Hne Hb He.
  rewrite (FindAll_hit (b "[[" ++ t ++ b "]]" ++ after)), (FindAll_hit after).
  assert (E : option_map hit (find R (b "[[" ++ t ++ b "]]" ++ after)) =
              option_map hit (find R after)).
  { destruct t as [|c t]; [congruence|].
    rewrite mem_cons in Hb. apply orb_false_iff in Hb.
    destruct Hb as [Hc Hb].
    assert (Hc' : c <> "["%byte).
    { intros ->. simpl in Hc. discriminate. }
    change (b "[[" ++ (c :: t) ++ b "]]" ++ after)
      with ("["%byte :: "["%byte :: c :: t ++ b "]]" ++ after) in *.
    rewrite (find_miss R _ _ He).
    rewrite find_miss.
    2:{ apply exec_bracketed_no_prefix.
        now apply strip_brackets_second. }
    rewrite find_miss.
    2:{ apply exec_bracketed_no_prefix.
        now apply strip_brackets_other. }
    rewrite app_assoc.
    rewrite <- (find_skip_plain (t ++ b "]]") after).
    - now destruct (find R ((t ++ b "]]") ++ after)).
    - rewrite mem_app, Hb. reflexivity. }
  now rewrite E.
Qed.

End Bracketed.

(** * Links and categories of a text of plain stretches and references *)

Lemma render_cons (sg : segment) (segs : list segment) :
  render (sg :: segs) = render_segment sg ++ render segs.
Proof. reflexivity. Qed.

Lemma no_pipe_run (t : bytes) :
  mem "|"%byte t = false -> forallb (in_class (NoneOf (b "|"))) t = true.
Proof.
  induction t as [|c t IH]; intros H; [reflexivity|].
  rewrite mem_cons in H. apply orb_false_iff in H. destruct H as [Hc Ht].
  simpl. rewrite (IH Ht), andb_true_r.
  unfold mem, b. simpl. rewrite orb_false_r.
  apply negb_true_iff. apply byte_eqb_neq. apply byte_eqb_neq in Hc.
  congruence.
Qed.

Lemma mem_split (z : byte) (t : bytes) :
  mem z t = true -> exists u v, t = u ++ z :: v.
Proof. intros H. apply mem_In in H. now apply in_split. Qed.

Lemma linkRegex_bracketed : linkRegex = bracketed [] (NoneOf (b "|")).
Proof. reflexivity. Qed.

Lemma categoryRegex_bracketed : categoryRegex = bracketed (b "Category:") Dot.
Proof. reflexivity. Qed.

Lemma links_of_render (segs : list segment) :
  forallb segment_ok segs = true ->
  map sub1 (FindAllStringSubmatch linkRegex (render segs)) = targets segs.
Proof.
  rewrite linkRegex_bracketed.
  induction segs as [|sg segs IH]; intros H; [reflexivity|].
  simpl in H. apply andb_true_iff in H. destruct H as [Hsg Hsegs].
  specialize (IH Hsegs). rewrite render_cons.
  destruct sg as [p|t]; cbn [segment_ok] in Hsg.
  - apply negb_true_iff in Hsg. cbn [render_segment].
    now rewrite FindAll_skip_plain.
  - apply andb_true_iff in Hsg. destruct Hsg as [Hsg Hclose].
    apply andb_true_iff in Hsg. destruct Hsg as [Hne Hopen].
    apply negb_true_iff in Hclose, Hopen.
    assert (Hne' : t <> []) by (destruct t; [discriminate|congruence]).
    cbn [render_segment]. rewrite <- !app_assoc.
    cbn [targets flat_map]. destruct (mem "|"%byte t) eqn:Hpipe.
    + destruct (mem_split _ _ Hpipe) as [u [v ->]].
      rewrite FindAll_skip_ref; try assumption.
      rewrite <- app_assoc.
      change (b "[[" ++ u ++ ("|"%byte :: v) ++ b "]]" ++ render segs)
        with ((b "[[" ++ []) ++ u ++ "|"%byte :: v ++ b "]]" ++ render segs).
      apply exec_bracketed_blocked.
      * rewrite mem_app in Hclose. now apply orb_false_iff in Hclose.
      * discriminate.
      * reflexivity.
    + destruct (exec_bracketed_hit [] (NoneOf (b "|")) t (render segs)
                  Hne' (no_pipe_run t Hpipe) Hclose) as [more E].
      change ((b "[[" ++ []) ++ t ++ b "]]" ++ render segs)
        with (b "[[" ++ t ++ b "]]" ++ render segs) in E.
      rewrite (FindAll_first _ _ _ _ more E). cbn [rest map text caps].
      rewrite IH. reflexivity.
Qed.

Lemma strip_prefix_app_both (a l s : bytes) :
  strip_prefix (a ++ l) (a ++ s) = strip_prefix l s.
Proof.
  induction a as [|c a IH]; simpl; [reflexivity|].
  now rewrite byte_eqb_refl.
Qed.

Lemma strip_prefix_None_ext (l t : bytes) (y : byte) (s : bytes) :
  strip_prefix l t = None ->
  mem y l = false ->
  strip_prefix l (t ++ y :: s) = None.
Proof.
  revert t. induction l as [|c l IH]; intros t H Hy.
  - simpl in H. discriminate.
  - rewrite mem_cons in Hy. apply orb_false_iff in Hy. destruct Hy as [Hc Hl].
    destruct t as [|x t]; simpl.
    + now rewrite Hc.
    + simpl in H. destruct (Byte.eqb x c); [|reflexivity]. now apply IH.
Qed.

Lemma categories_of_render (segs : list segment) :
  forallb segment_ok segs = true ->
  forallb category_ok segs = true ->
  map (fun m => Trim (sub1 m) cutset)
      (FindAllStringSubmatch categoryRegex (render segs)) =
  category_names segs.
Proof.
  rewrite categoryRegex_bracketed.
  induction segs as [|sg segs IH]; intros H Hcat; [reflexivity|].
  simpl in H. apply andb_true_iff in H. destruct H as [Hsg Hsegs].
  simpl in Hcat. apply andb_true_iff in Hcat. destruct Hcat as [Hc Hcats].
  specialize (IH Hsegs Hcats). rewrite render_cons.
  destruct sg as [p|t]; cbn [segment_ok] in Hsg.
  - apply negb_true_iff in Hsg. cbn [render_segment].
    now rewrite FindAll_skip_plain.
  - apply andb_true_iff in Hsg. destruct Hsg as [Hsg Hclose].
    apply andb_true_iff in Hsg. destruct Hsg as [Hne Hopen].
    apply negb_true_iff in Hclose, Hopen.
    assert (Hne' : t <> []) by (destruct t; [discriminate|congruence]).
    cbn [render_segment]. rewrite <- !app_assoc.
    cbn [category_names flat_map]. cbn [category_ok] in Hc.
    destruct (strip_prefix (b "Category:") t) as [name|] eqn:Hpre.
    + apply strip_prefix_Some in Hpre. subst t.
      apply andb_true_iff in Hc. destruct Hc as [Hn Hnl].
      apply negb_true_iff in Hnl.
      assert (Hn' : name <> []) by (destruct name; [discriminate|congruence]).
      rewrite mem_app in Hclose. apply orb_false_iff in Hclose.
      destruct Hclose as [_ Hclose].
      assert (Hdot : forallb (in_class Dot) name = true).
      { apply dot_run. intros Hin. apply mem_In in Hin. congruence. }
      destruct (exec_bracketed_hit (b "Category:") Dot name (render segs)
                  Hn' Hdot Hclose) as [more E].
      rewrite <- !app_assoc in E. rewrite <- !app_assoc.
      rewrite (FindAll_first _ _ _ _ more E). cbn [rest map text caps].
      rewrite IH. reflexivity.
    + rewrite FindAll_skip_ref; try assumption.
      apply exec_bracketed_no_prefix. rewrite strip_prefix_app_both.
      unfold b at 2. simpl app.
      change (t ++ "]"%byte :: "]"%byte :: render segs)
        with (t ++ "]"%byte :: ("]"%byte :: render segs)).
      now apply strip_prefix_None_ext.
Qed.

(** * Trimming *)

Lemma TrimLeft_spec (s cut : bytes) :
  exists l, s = l ++ TrimLeft s cut /\ all_in cut l = true /\
            head_outside cut (TrimLeft s cut).
Proof.
  induction s as [|x s IH]; simpl.
  - exists []. now repeat split.
  - destruct (mem x cut) eqn:E.
    + destruct IH as [l [H1 [H2 H3]]]. exists (x :: l). simpl.
      rewrite E, H2. repeat split; [|assumption]. now rewrite <- H1.
    + exists []. now repeat split.
Qed.

Lemma all_in_rev (cut l : bytes) : all_in cut (rev l) = all_in cut l.
Proof.
  unfold all_in. induction l as [|x l IH]; simpl; [reflexivity|].
  rewrite forallb_app, IH. simpl. rewrite andb_true_r. apply andb_comm.
Qed.

Lemma TrimRight_spec (s cut : bytes) :
  exists r, s = TrimRight s cut ++ r /\ all_in cut r = true /\
            head_outside cut (rev (TrimRight s cut)).
Proof.
  unfold TrimRight. destruct (TrimLeft_spec (rev s) cut) as [l [H1 [H2 H3]]].
  exists (rev l). rewrite rev_involutive. repeat split.
  - rewrite <- rev_app_distr, <- H1. now rewrite rev_involutive.
  - now rewrite all_in_rev.
  - assumption.
Qed.

(** [Trim] cuts off a run of cutset bytes at either end, and what it
    leaves neither starts nor ends with a cutset byte. *)
Lemma Trim_spec (s cut : bytes) :
  exists l r,
    s = l ++ Trim s cut ++ r /\
    all_in cut l = true /\ all_in cut r = true /\
    head_outside cut (Trim s cut) /\
    head_outside cut (rev (Trim s cut)).
Proof.
  unfold Trim. destruct (TrimRight_spec s cut) as [r [H1 [H2 H3]]].
  destruct (TrimLeft_spec (TrimRight s cut) cut) as [l [H4 [H5 H6]]].
  exists l, r. repeat split; try assumption.
  - rewrite app_assoc, <- H4. exact H1.
  - rewrite H4 in H3. rewrite rev_app_distr in H3.
    destruct (rev (TrimLeft (TrimRight s cut) cut)); [exact I|exact H3].
Qed.

(** * Links *)

(** C1, as the claim states it, fails: on the text of the specification's
    example the category reference is among the links. *)
Lemma category_reference_among_links :
  Links (GetLinks_page (page_of_text example_text)) =
  [b "A"; b "B"; b "Category:C"] /\
  Links (GetLinks_page (page_of_text example_text)) <> [b "A"; b "B"].
Proof.
  vm_compute. split; [reflexivity|discriminate].
Qed.

(** C1, amended.  For a page whose text is made of stretches without
    opening bracket and of references with a non-empty, bracket-free
    target, the link extractor appends to the links the targets of all
    references without a pipe, category references among them, verbatim,
    without deduplication and in order of appearance, and changes nothing
    else. *)
Theorem links_extracted (p : Page) (segs : list segment) :
  Text (Revision p) = render segs ->
  forallb segment_ok segs = true ->
  Links (GetLinks_page p) = Links p ++ targets segs /\
  Title (GetLinks_page p) = Title p /\
  Revision (GetLinks_page p) = Revision p /\
  Categories (GetLinks_page p) = Categories p.
Proof.
  intros Ht Hok. repeat split.
  rewrite GetLinks_page_Links, Ht. now rewrite links_of_render.
Qed.

Lemma links_extracted_witness :
  Links (GetLinks_page (page_of_text example_text)) =
  Links (page_of_text example_text) ++ targets example_segments /\
  Title (GetLinks_page (page_of_text example_text)) =
  Title (page_of_text example_text) /\
  Revision (GetLinks_page (page_of_text example_text)) =
  Revision (page_of_text example_text) /\
  Categories (GetLinks_page (page_of_text example_text)) =
  Categories (page_of_text example_text).
Proof.
  apply (links_extracted (page_of_text example_text) example_segments);
    reflexivity.
Defined.

(** * Categories *)

(** C9, as the claim states it, fails: a category reference with an
    empty name makes the pattern run on to the end of the next reference,
    and a name broken over two lines is not found at all. *)
Lemma category_names_run_on_or_vanish :
  Categories (GetCategories_page
                (page_of_text (b "[[Category:]] and [[Category:B]]"))) =
  [b "]] and [[Category:B"] /\
  Categories (GetCategories_page
                (page_of_text (b "[[Category:A" ++ [NL] ++ b "B]]"))) = [] /\
  Categories (GetCategories_page
                (page_of_text (b "[[Category:]] and [[Category:B]]"))) <>
  [[]; b "B"] /\
  Categories (GetCategories_page
                (page_of_text (b "[[Category:A" ++ [NL] ++ b "B]]"))) <>
  [b "A" ++ [NL] ++ b "B"].
Proof.
  vm_compute. repeat split; discriminate.
Qed.

(** C9, amended.  For a page whose text is made of stretches without opening
    bracket and of references with a non-empty, bracket-free target, the
    category references naming a category on one line, the categories set
    by the category extractor, alone or behind the link extractor as in
    [CategorizedParse], are the targets of the references that begin with
    ["Category:"], in order of appearance, the prefix stripped and the
    spaces, tabs and pipes at either end cut off; the reference
    ["[[Category: Foo | ]]"] gives ["Foo"]. *)
Theorem categories_extracted (p : Page) (segs : list segment) :
  Text (Revision p) = render segs ->
  forallb segment_ok segs = true ->
  forallb category_ok segs = true ->
  Categories (GetCategories_page p) = category_names segs /\
  Categories (GetCategories_page (GetLinks_page p)) = category_names segs /\
  (forall name, exists l r,
      name = l ++ Trim name cutset ++ r /\
      all_in cutset l = true /\ all_in cutset r = true /\
      head_outside cutset (Trim name cutset) /\
      head_outside cutset (rev (Trim name cutset))) /\
  Categories (GetCategories_page (page_of_text (b "[[Category: Foo | ]]"))) =
  [b "Foo"].
Proof.
  intros Ht Hok Hcat.
  assert (E : Categories (GetCategories_page p) = category_names segs).
  { rewrite GetCategories_page_Categories, Ht.
    now apply categories_of_render. }
  split; [assumption|]. split; [exact E|].
  split; [intros name; apply Trim_spec|]. reflexivity.
Qed.

Lemma categories_extracted_witness :
  Categories (GetCategories_page (page_of_text (render category_segments))) =
  category_names category_segments.
Proof.
  apply (proj1 (categories_extracted
                  (page_of_text (render category_segments))
                  category_segments eq_refl eq_refl eq_refl)).
Defined.

Example category_names_sample :
  category_names category_segments = [b "Foo"; b "Bar|key"].
Proof. reflexivity. Qed.

(** * Further properties of the line source *)

(** X1.  When the scanner delivers its tokens and then answers false
    with a nil error, as it does at [io.EOF] when no line has reached the
    token limit, the loop of [GetChunks] comes to an end as soon as the
    tokens are exhausted: every token has been sent, in order, nothing
    has been logged and [chunks] is closed, however many more iterations
    are allowed. *)
Theorem eof_scanner_sends_all_tokens
  (toks : list bytes) (tok : bytes) (fuel : nat) :
  length toks < fuel ->
  let st := GetChunks fuel {| script := map Some toks; token := tok;
                              err := None |} in
  sent st = toks /\ logged st = [] /\ closed st = true.
Proof.
  intros Hf. cbv zeta. unfold GetChunks. split.
  - rewrite (GetChunks_loop_lines fuel toks); [|reflexivity].
    cbn [sent app]. apply firstn_all2. lia.
  - apply (GetChunks_loop_eof fuel toks); [reflexivity|reflexivity|exact Hf].
Qed.

Lemma eof_scanner_sends_all_tokens_witness :
  let st := GetChunks 7 {| script := map Some [b "<page>"; b "x"; b "</page>"];
                           token := []; err := None |} in
  sent st = [b "<page>"; b "x"; b "</page>"] /\
  logged st = [] /\ closed st = true.
Proof.
  apply (eof_scanner_sends_all_tokens [b "<page>"; b "x"; b "</page>"] [] 7).
  simpl. lia.
Defined.

(** * Further properties of the block assembler *)

Lemma interior_not_start (c : bytes) :
  Match pageStartRegex c = false ->
  closing c = false ->
  interior c = true.
Proof.
  unfold closing, interior. intros Hs Hc. rewrite Hs in *. simpl in *.
  now rewrite Hc.
Qed.

(** The blocks sent from a state whose buffer is assembled. *)
Lemma loop_assembled (Q : bytes -> Prop) (chunks : list bytes) :
  Forall Q chunks ->
  forall (st : assembler) (ls : list bytes),
    page st = b "<page>" ++ concat ls ->
    Forall (fun c => Q c /\ interior c = true) ls ->
    Forall (assembled Q) (GetRawPages_loop st chunks).
Proof.
  induction 1 as [|c chunks Hc _ IH]; intros st ls Hp Hls; simpl.
  - constructor.
  - destruct (Match pageStartRegex c) eqn:Hs.
    + rewrite (step_start st c Hs). simpl. now apply (IH _ ls).
    + destruct (Match pageEndRegex c) eqn:He.
      * rewrite (step_close st c Hs He). destruct (inPage st); simpl.
        -- constructor.
           ++ exists ls. split; [|assumption].
              rewrite Hp. now rewrite <- app_assoc.
           ++ apply (IH _ []); [reflexivity|constructor].
        -- now apply (IH _ ls).
      * rewrite (step_body st c Hs He). destruct (inPage st); simpl.
        -- apply (IH _ (ls ++ [c])).
           ++ cbn [page]. rewrite Hp, concat_app. cbn [concat].
              rewrite app_nil_r. now rewrite app_assoc.
           ++ apply Forall_app. split; [assumption|].
              constructor; [|constructor]. split; [assumption|].
              unfold interior. now rewrite Hs, He.
        -- now apply (IH _ ls).
Qed.

(** X2.  Every block that [GetRawPages] sends is ["<page>"], then some of
    the received chunks that match neither marker pattern, joined with
    nothing between them, then ["</page>"]: the text of start and end
    lines and the line breaks never reach a block. *)
Theorem blocks_are_joined_interior_lines (chunks : list bytes) (blk : bytes) :
  In blk (GetRawPages chunks) ->
  exists ls,
    blk = b "<page>" ++ concat ls ++ b "</page>" /\
    Forall (fun c => In c chunks /\ interior c = true) ls.
Proof.
  intros H.
  assert (HF : Forall (assembled (fun c => In c chunks)) (GetRawPages chunks)).
  { unfold GetRawPages. apply (loop_assembled _ chunks) with (ls := []).
    - apply Forall_forall. now intros c Hc.
    - reflexivity.
    - constructor. }
  rewrite Forall_forall in HF. exact (HF blk H).
Qed.

Lemma blocks_are_joined_interior_lines_witness :
  exists ls,
    b "<page>ab</page>" = b "<page>" ++ concat ls ++ b "</page>" /\
    Forall (fun c => In c [b "<page>"; b "a"; b "b"; b "</page>"] /\
                     interior c = true) ls.
Proof.
  apply (blocks_are_joined_interior_lines
           [b "<page>"; b "a"; b "b"; b "</page>"] (b "<page>ab</page>")).
  vm_compute. now left.
Defined.

Lemma loop_count (chunks : list bytes) (st : assembler) :
  length (GetRawPages_loop st chunks) <=
  length (filter closing chunks) /\
  length (GetRawPages_loop st chunks) <=
  (if inPage st then 1 else 0) +
  length (filter (Match pageStartRegex) chunks).
Proof.
  revert st. induction chunks as [|c chunks IH]; intros st; simpl.
  - split; lia.
  - unfold closing at 1. destruct (Match pageStartRegex c) eqn:Hs.
    + rewrite (step_start st c Hs). simpl.
      destruct (IH {| page := page st; inPage := true |}) as [H1 H2].
      simpl in H2. split; [assumption|]. destruct (inPage st); lia.
    + destruct (Match pageEndRegex c) eqn:He.
      * rewrite (step_close st c Hs He). destruct (inPage st); simpl.
        -- destruct (IH {| page := b "<page>"; inPage := false |}) as [H1 H2].
           simpl in H2. split; lia.
        -- destruct (IH {| page := page st; inPage := false |}) as [H1 H2].
           simpl in H2. split; lia.
      * rewrite (step_body st c Hs He). destruct (inPage st) eqn:Hin; simpl.
        -- destruct (IH {| page := page st ++ c; inPage := true |}) as [H1 H2].
           simpl in H2. split; lia.
        -- destruct (IH st) as [H1 H2]. rewrite Hin in H2. split; lia.
Qed.

(** X3.  [GetRawPages] sends at most one block for each start line and at
    most one for each closing line, a closing line being one that matches
    the end pattern and not the start pattern. *)
Theorem blocks_bounded_by_markers (chunks : list bytes) :
  length (GetRawPages chunks) <=
  length (filter (Match pageStartRegex) chunks) /\
  length (GetRawPages chunks) <= length (filter closing chunks).
Proof.
  unfold GetRawPages.
  destruct (loop_count chunks {| page := b "<page>"; inPage := false |})
    as [H1 H2].
  simpl in H2. split; assumption.
Qed.

Lemma step_keeps_seed (st : assembler) (c : bytes) :
  (inPage st = false -> page st = b "<page>") ->
  inPage (fst (GetRawPages_step st c)) = false ->
  page (fst (GetRawPages_step st c)) = b "<page>".
Proof.
  intros Hst. unfold GetRawPages_step.
  destruct (Match pageStartRegex c); [simpl; discriminate|].
  destruct (Match pageEndRegex c).
  - destruct (inPage st) eqn:Hin; simpl; intros _;
      [reflexivity|now apply Hst].
  - destruct (inPage st) eqn:Hin; simpl; intros H; [congruence|].
    now apply Hst.
Qed.

Lemma after_keeps_seed (chunks : list bytes) (st : assembler) :
  (inPage st = false -> page st = b "<page>") ->
  inPage (assembler_after st chunks) = false ->
  page (assembler_after st chunks) = b "<page>".
Proof.
  revert st. induction chunks as [|c chunks IH]; intros st Hst; simpl.
  - exact Hst.
  - apply IH. now apply step_keeps_seed.
Qed.

Lemma after_outside (chunks : list bytes) :
  inPage (assembler_after outside chunks) = false ->
  assembler_after outside chunks = outside.
Proof.
  intros H. pose proof (after_keeps_seed chunks outside (fun _ => eq_refl) H).
  destruct (assembler_after outside chunks) as [p i]. simpl in *.
  subst. reflexivity.
Qed.

Lemma loop_inside_unclosed (p : bytes) (body chunks : list bytes) :
  forallb (fun c => negb (closing c)) body = true ->
  GetRawPages_loop {| page := p; inPage := true |} (body ++ chunks) =
  GetRawPages_loop {| page := p ++ concat (filter interior body);
                      inPage := true |} chunks.
Proof.
  revert p. induction body as [|c l IH]; intros p H; simpl.
  - now rewrite app_nil_r.
  - simpl in H. apply andb_true_iff in H. destruct H as [Hc Hl].
    apply negb_true_iff in Hc.
    destruct (Match pageStartRegex c) eqn:Hs.
    + rewrite (step_start _ c Hs). simpl.
      unfold interior at 1. rewrite Hs. simpl. now apply IH.
    + rewrite (interior_not_start c Hs Hc).
      pose proof (interior_not_start c Hs Hc) as Hi.
      unfold interior in Hi. rewrite Hs in Hi. simpl in Hi.
      apply negb_true_iff in Hi.
      rewrite (step_body _ c Hs Hi). simpl. rewrite (IH _ Hl).
      cbn [concat]. now rewrite app_assoc.
Qed.

(** X4.  A page that lacks its closing line runs on into the next one:
    from a start line to the first closing line everything lies in one
    block, made of the lines between that match neither pattern; the
    start lines between are dropped. *)
Theorem unclosed_page_merges_with_next
  (opening : bytes) (body : list bytes) (ending : bytes) (rest : list bytes) :
  Match pageStartRegex opening = true ->
  forallb (fun c => negb (closing c)) body = true ->
  closing ending = true ->
  GetRawPages (opening :: body ++ ending :: rest) =
  (b "<page>" ++ concat (filter interior body) ++ b "</page>") ::
  GetRawPages rest.
Proof.
  intros Ho Hb He. unfold GetRawPages. simpl.
  rewrite (step_start _ opening Ho). simpl.
  rewrite (loop_inside_unclosed _ body _ Hb). simpl.
  unfold closing in He. apply andb_true_iff in He. destruct He as [Hs He].
  apply negb_true_iff in Hs. rewrite (step_close _ ending Hs He).
  simpl. reflexivity.
Qed.

Lemma unclosed_page_merges_with_next_witness :
  GetRawPages (b "<page>" :: [b "one"; b " <page>"; b "two"] ++
               b "</page>" :: [b "<page>"; b "three"; b "</page>"]) =
  (b "<page>" ++ concat (filter interior [b "one"; b " <page>"; b "two"]) ++
   b "</page>") ::
  GetRawPages [b "<page>"; b "three"; b "</page>"].
Proof.
  apply (unclosed_page_merges_with_next (b "<page>")
           [b "one"; b " <page>"; b "two"] (b "</page>")
           [b "<page>"; b "three"; b "</page>"]); reflexivity.
Defined.

(** X5.  Chunks received before the first start line send nothing and
    leave no trace, end lines among them included. *)
Theorem lines_before_first_page_ignored (gap chunks : list bytes) :
  forallb (fun c => negb (Match pageStartRegex c)) gap = true ->
  GetRawPages (gap ++ chunks) = GetRawPages chunks.
Proof.
  intros H. unfold GetRawPages. fold outside. now apply loop_gap.
Qed.

Lemma lines_before_first_page_ignored_witness :
  GetRawPages ([b "<mediawiki>"; b "</page>"; b "text"] ++
               [b "<page>"; b "a"; b "</page>"]) =
  GetRawPages [b "<page>"; b "a"; b "</page>"].
Proof.
  apply (lines_before_first_page_ignored
           [b "<mediawiki>"; b "</page>"; b "text"]
           [b "<page>"; b "a"; b "</page>"]).
  reflexivity.
Defined.

Section Composition.

Variable Unmarshal : bytes -> option Page.

Lemma GetPages_length (rawPages : list bytes) :
  length (GetPages Unmarshal rawPages) <= length rawPages.
Proof.
  induction rawPages as [|raw l IH]; simpl; [lia|].
  rewrite length_app. destruct (Unmarshal raw); simpl; lia.
Qed.

Lemma ParseChunks_length (chunks : list bytes) :
  length (ParseChunks Unmarshal chunks) <= length (GetRawPages chunks).
Proof.
  unfold ParseChunks, GetLinks. rewrite length_map.
  pose proof (GetPages_length (FilterRedirects (GetRawPages chunks))) as H1.
  pose proof (filter_length_le
                (fun rawPage => match Find redirectRegex rawPage with
                                | None => true
                                | Some _ => false
                                end) (GetRawPages chunks)) as H2.
  unfold FilterRedirects in *. lia.
Qed.

(** X6.  When the first of two runs of received chunks leaves the
    assembler outside a page, the blocks of the two runs put together,
    and the pages the stages behind make of them, are those of the first
    run followed by those of the second. *)
Theorem runs_concatenate (first second : list bytes) :
  inPage (assembler_after outside first) = false ->
  GetRawPages (first ++ second) = GetRawPages first ++ GetRawPages second /\
  ParseChunks Unmarshal (first ++ second) =
  ParseChunks Unmarshal first ++ ParseChunks Unmarshal second /\
  CategorizedParseChunks Unmarshal (first ++ second) =
  CategorizedParseChunks Unmarshal first ++
  CategorizedParseChunks Unmarshal second.
Proof.
  intros H.
  assert (Hraw : GetRawPages (first ++ second) =
                 GetRawPages first ++ GetRawPages second).
  { unfold GetRawPages. fold outside. rewrite GetRawPages_loop_app.
    now rewrite (after_outside first H). }
  assert (Hp : ParseChunks Unmarshal (first ++ second) =
               ParseChunks Unmarshal first ++ ParseChunks Unmarshal second).
  { unfold ParseChunks. rewrite Hraw.
    rewrite FilterRedirects_app, GetPages_app. unfold GetLinks.
    apply map_app. }
  split; [assumption|]. split; [assumption|].
  unfold CategorizedParseChunks, GetCategories. rewrite Hp. apply map_app.
Qed.

(** X7.  From the chunks they receive the stages behind the line source
    make at most one page for each start line and at most one for each
    closing line among those chunks, and the categorized variant makes as
    many pages as the plain one. *)
Theorem pages_bounded_by_markers (chunks : list bytes) :
  length (ParseChunks Unmarshal chunks) <=
  length (filter (Match pageStartRegex) chunks) /\
  length (ParseChunks Unmarshal chunks) <=
  length (filter closing chunks) /\
  length (CategorizedParseChunks Unmarshal chunks) =
  length (ParseChunks Unmarshal chunks).
Proof.
  pose proof (ParseChunks_length chunks) as H.
  destruct (loop_count chunks {| page := b "<page>"; inPage := false |})
    as [H2 H1]. fold (GetRawPages chunks) in H1, H2. simpl in H1.
  split; [lia|]. split; [lia|].
  unfold CategorizedParseChunks, GetCategories. apply length_map.
Qed.

Lemma kept_pipeline (rawPages : list bytes) (pages : list Page) :
  kept Unmarshal rawPages pages ->
  GetPages Unmarshal (FilterRedirects rawPages) = pages.
Proof.
  induction 1 as [|raw raws pages Hd _ IH|raw raws pages Hu _ IH
                  |raw p raws pages Hd Hu _ IH]; simpl.
  - reflexivity.
  - apply redirectRegex_directive in Hd.
    destruct (Find redirectRegex raw); [exact IH|congruence].
  - destruct (Find redirectRegex raw); [exact IH|].
    simpl. rewrite Hu. exact IH.
  - rewrite (no_directive_no_match raw Hd). simpl. rewrite Hu. simpl.
    now rewrite IH.
Qed.

Lemma kept_exists (rawPages : list bytes) :
  exists pages, kept Unmarshal rawPages pages.
Proof.
  induction rawPages as [|raw raws [pages IH]].
  - exists []. constructor.
  - destruct (Find redirectRegex raw) as [m|] eqn:E.
    + exists pages. apply kept_redirect; [|assumption].
      apply redirectRegex_directive. rewrite E. discriminate.
    + destruct (Unmarshal raw) as [p|] eqn:Hu.
      * exists (p :: pages). apply kept_page; try assumption.
        now apply no_directive_sample.
      * exists pages. now apply kept_undecoded.
Qed.

(** X8.  The pages the stages behind the line source send are exactly, in
    order and as often as they occur, the pages decoded from the
    assembled blocks that hold no redirect directive and decode, each
    with its links added: a block with the directive and a block that
    fails to decode send nothing. *)
Theorem parse_output_characterised (chunks : list bytes) :
  (exists pages,
      kept Unmarshal (GetRawPages chunks) pages /\
      ParseChunks Unmarshal chunks = map GetLinks_page pages) /\
  (forall pages,
      kept Unmarshal (GetRawPages chunks) pages ->
      ParseChunks Unmarshal chunks = map GetLinks_page pages).
Proof.
  assert (H : forall pages,
             kept Unmarshal (GetRawPages chunks) pages ->
             ParseChunks Unmarshal chunks = map GetLinks_page pages).
  { intros pages Hk. unfold ParseChunks.
    now rewrite (kept_pipeline _ _ Hk). }
  split; [|exact H].
  destruct (kept_exists (GetRawPages chunks)) as [pages Hk].
  exists pages. split; [assumption|now apply H].
Qed.

(** X9.  Received chunks among which every one that contains ["</page>"]
    contains ["<page>"] as well, such as chunks that each hold a whole
    page, send no block and no page. *)
Theorem single_line_pages_lost (chunks : list bytes) :
  (forall c, In c chunks ->
             contains (b "</page>") c -> contains (b "<page>") c) ->
  GetRawPages chunks = [] /\
  ParseChunks Unmarshal chunks = [].
Proof.
  intros H.
  assert (Hraw : GetRawPages chunks = []).
  { unfold GetRawPages. apply loop_no_closing. apply forallb_forall.
    intros c Hc. unfold closing.
    destruct (Match pageStartRegex c) eqn:Hs; [reflexivity|].
    destruct (Match pageEndRegex c) eqn:He; [|reflexivity].
    apply pageEnd_contains in He. apply (H c Hc) in He.
    apply pageStart_contains in He. congruence. }
  split; [assumption|]. unfold ParseChunks. now rewrite Hraw.
Qed.

End Composition.

Lemma runs_concatenate_witness :
  GetRawPages ([b "<page>"; b "a"; b "</page>"] ++
               [b "<page>"; b "c"; b "</page>"]) =
  GetRawPages [b "<page>"; b "a"; b "</page>"] ++
  GetRawPages [b "<page>"; b "c"; b "</page>"].
Proof.
  apply (proj1 (runs_concatenate sample_Unmarshal
                  [b "<page>"; b "a"; b "</page>"]
                  [b "<page>"; b "c"; b "</page>"] eq_refl)).
Defined.

Lemma parse_output_characterised_witness :
  ParseChunks sample_Unmarshal (block_lines prose_block) =
  map GetLinks_page [].
Proof.
  apply (proj2 (parse_output_characterised sample_Unmarshal
                  (block_lines prose_block)) []).
  apply kept_redirect; [|constructor].
  apply redirectRegex_directive. vm_compute. discriminate.
Defined.

Lemma single_line_pages_lost_witness :
  GetRawPages one_line_pages = [] /\
  ParseChunks sample_Unmarshal one_line_pages = [].
Proof.
  apply (single_line_pages_lost sample_Unmarshal one_line_pages).
  intros c Hc _. apply pageStart_contains.
  destruct Hc as [<-|[<-|[]]]; reflexivity.
Defined.

(** * Redirects across lines *)

Lemma mem_concat_false (x : byte) (ls : list bytes) :
  Forall (fun c => mem x c = false) ls -> mem x (concat ls) = false.
Proof.
  induction 1 as [|c ls Hc _ IH]; simpl; [reflexivity|].
  now rewrite mem_app, Hc, IH.
Qed.

Lemma directive_joined (rawPage : bytes) :
  mem NL rawPage = false ->
  redirect_directive rawPage <-> redirect_directive_joined rawPage.
Proof.
  intros Hnl. split.
  - intros [before [sp [between [target [after [E [Hsp _]]]]]]].
    now exists before, sp, between, target, after.
  - intros [before [sp [between [target [after [E Hsp]]]]]].
    exists before, sp, between, target, after.
    split; [assumption|]. split; [assumption|].
    rewrite E in Hnl. rewrite !mem_app in Hnl.
    apply orb_false_iff in Hnl. destruct Hnl as [_ Hnl].
    apply orb_false_iff in Hnl. destruct Hnl as [_ Hnl].
    change (sp :: between ++ b "[[" ++ target ++ b "]]" ++ after)
      with ([sp] ++ between ++ b "[[" ++ target ++ b "]]" ++ after) in Hnl.
    rewrite !mem_app in Hnl.
    apply orb_false_iff in Hnl. destruct Hnl as [_ Hnl].
    apply orb_false_iff in Hnl. destruct Hnl as [Hb Hnl].
    apply orb_false_iff in Hnl. destruct Hnl as [_ Hnl].
    apply orb_false_iff in Hnl. destruct Hnl as [Ht _].
    split; intros Hin; apply mem_In in Hin; congruence.
Qed.

(** X10.  The lines of a page are joined into its block with nothing
    between them, so on chunks without line feed, as a line scanner
    delivers them, the filter drops a block exactly when ["#REDIRECT"]
    with a space or a tab behind it is followed anywhere later in the
    page, on the same line or on a later one, by an opening and then a
    closing pair of brackets. *)
Theorem redirect_spans_lines (chunks : list bytes) (blk : bytes) :
  Forall (fun c => mem NL c = false) chunks ->
  In blk (GetRawPages chunks) ->
  mem NL blk = false /\
  (In blk (FilterRedirects (GetRawPages chunks)) <->
   ~ redirect_directive_joined blk).
Proof.
  intros Hch Hin.
  assert (Hnl : mem NL blk = false).
  { assert (HF : Forall (assembled (fun c => mem NL c = false))
                        (GetRawPages chunks)).
    { unfold GetRawPages. apply (loop_assembled _ chunks Hch) with (ls := []);
        [reflexivity|constructor]. }
    rewrite Forall_forall in HF. destruct (HF blk Hin) as [ls [-> Hls]].
    rewrite !mem_app. rewrite mem_concat_false.
    - reflexivity.
    - apply Forall_forall. intros c Hc. rewrite Forall_forall in Hls.
      now apply (Hls c Hc). }
  split; [assumption|].
  rewrite <- (directive_joined blk Hnl), <- redirectRegex_directive.
  unfold FilterRedirects. rewrite filter_In.
  destruct (Find redirectRegex blk); split.
  - intros [_ H]. discriminate.
  - intros H. elim H. discriminate.
  - intros _ H. now apply H.
  - intros _. now split.
Qed.

Lemma redirect_spans_lines_witness :
  mem NL (b "<page><text>write #REDIRECT on topas in [[Help]]</text></page>")
  = false /\
  (In (b "<page><text>write #REDIRECT on topas in [[Help]]</text></page>")
      (FilterRedirects (GetRawPages redirect_in_prose)) <->
   ~ redirect_directive_joined
       (b "<page><text>write #REDIRECT on topas in [[Help]]</text></page>")).
Proof.
  apply (redirect_spans_lines redirect_in_prose
    (b "<page><text>write #REDIRECT on topas in [[Help]]</text></page>")).
  - repeat constructor.
  - vm_compute. now left.
Defined.

Example redirect_in_prose_dropped :
  GetRawPages redirect_in_prose =
  [b "<page><text>write #REDIRECT on topas in [[Help]]</text></page>"] /\
  FilterRedirects (GetRawPages redirect_in_prose) = [].
Proof. split; reflexivity. Qed.

(** * Links and categories of any text *)

Lemma exec_Plus_In (c : class) (g : bool) (s : bytes) (a : attempt) :
  In a (exec (Plus c g) s) ->
  exists t r, t <> [] /\ forallb (in_class c) t = true /\
              s = t ++ r /\ a = At t [] r.
Proof.
  simpl. destruct s as [|x s]; [intros []|].
  destruct (in_class c x) eqn:Hx; [|intros []].
  rewrite map_map. intros H. apply in_map_iff in H.
  destruct H as [[y r] [<- H]]. apply runs_In in H. destruct H as [-> Hy].
  exists (x :: y), r. repeat split.
  - discriminate.
  - simpl. now rewrite Hx.
Qed.

Lemma exec_bracketed_In
  (prefix : bytes) (cls : class) (s : bytes) (a : attempt) :
  In a (exec (bracketed prefix cls) s) ->
  exists t r,
    t <> [] /\ forallb (in_class cls) t = true /\
    s = (b "[[" ++ prefix) ++ t ++ b "]]" ++ r /\
    a = At ((b "[[" ++ prefix) ++ t ++ b "]]") [t] r.
Proof.
  unfold bracketed. intros H.
  apply exec_Cat_In in H. destruct H as [a1 [a2 [H1 [H ->]]]].
  apply exec_Literal_In in H1. destruct H1 as [r1 [-> ->]]. cbn [rest] in H.
  apply exec_Cat_In in H. destruct H as [a3 [a4 [H3 [H4 ->]]]].
  cbn [exec] in H3. apply in_map_iff in H3. destruct H3 as [a5 [<- H5]].
  apply exec_Plus_In in H5. destruct H5 as [t [r [Hne [Ht [-> ->]]]]].
  cbn [rest capture] in H4. apply exec_Literal_In in H4.
  destruct H4 as [r4 [-> ->]].
  exists t, r4. repeat split; assumption.
Qed.

Lemma contains_later (l p s : bytes) : contains l s -> contains l (p ++ s).
Proof.
  intros [before [after ->]]. exists (p ++ before), after.
  now rewrite <- app_assoc.
Qed.

(** Every match of a bracketed pattern stands in the text. *)
Lemma FindAll_bracketed_sound (prefix : bytes) (cls : class) :
  forall n s m,
    length s < n ->
    In m (FindAllStringSubmatch (bracketed prefix cls) s) ->
    exists t,
      m = [(b "[[" ++ prefix) ++ t ++ b "]]"; t] /\
      t <> [] /\ forallb (in_class cls) t = true /\
      contains ((b "[[" ++ prefix) ++ t ++ b "]]") s.
Proof.
  induction n as [|n IH]; intros s m Hn Hin; [lia|].
  rewrite (FindAll_step _ s (never_empty_bracketed prefix cls)) in Hin.
  destruct (find (bracketed prefix cls) s) as [f|] eqn:F; [|destruct Hin].
  pose proof (find_shorter _ s f (never_empty_bracketed prefix cls) F) as Hlt.
  destruct (find_sound _ s f F) as [E [more Hm]].
  assert (Ha : In (hit f) (exec (bracketed prefix cls)
                             (text (hit f) ++ rest (hit f)))).
  { rewrite Hm. now left. }
  apply exec_bracketed_In in Ha. destruct Ha as [t [r [Hne [Ht [Es Ea]]]]].
  destruct Hin as [<-|Hin].
  - exists t. rewrite Ea. cbn [text caps]. repeat split; try assumption.
    rewrite E. apply contains_later. rewrite Ea. cbn [text rest].
    exists [], r. simpl. now rewrite <- !app_assoc.
  - destruct (IH (rest (hit f)) m) as [t' [H1 [H2 [H3 H4]]]];
      [lia|assumption|].
    exists t'. repeat split; try assumption.
    rewrite E. apply contains_later. now apply contains_later.
Qed.

Lemma no_pipe_run_inv (t : bytes) :
  forallb (in_class (NoneOf (b "|"))) t = true -> mem "|"%byte t = false.
Proof.
  induction t as [|c t IH]; intros H; [reflexivity|].
  simpl in H. apply andb_true_iff in H. destruct H as [Hc Ht].
  rewrite mem_cons, (IH Ht), orb_false_r.
  unfold mem, b in Hc. simpl in Hc. rewrite orb_false_r in Hc.
  apply negb_true_iff in Hc. apply byte_eqb_neq in Hc.
  apply byte_eqb_neq. congruence.
Qed.

(** X11.  Whatever the text, the link extractor keeps the links the page
    had, in front, and every link it adds behind them is a non-empty run
    of bytes without pipe that stands in the text between ["[["] and
    ["]]"]. *)
Theorem links_stand_in_text (p : Page) :
  exists added,
    Links (GetLinks_page p) = Links p ++ added /\
    Forall (fun l => l <> [] /\ mem "|"%byte l = false /\
                     contains (b "[[" ++ l ++ b "]]") (Text (Revision p)))
           added.
Proof.
  exists (map sub1 (FindAllStringSubmatch linkRegex (Text (Revision p)))).
  split; [apply GetLinks_page_Links|].
  apply Forall_forall. intros l H.
  apply in_map_iff in H. destruct H as [m [<- Hm]].
  rewrite linkRegex_bracketed in Hm.
  destruct (FindAll_bracketed_sound [] (NoneOf (b "|"))
              (S (length (Text (Revision p)))) _ m (Nat.lt_succ_diag_r _) Hm)
    as [t [-> [Hne [Ht Hc]]]].
  unfold sub1. cbn [nth]. split; [assumption|].
  split; [now apply no_pipe_run_inv|exact Hc].
Qed.

(** X12.  Whatever the text, every category that the category extractor
    sets is what [Trim] leaves of a non-empty name without line feed that
    stands in the text between ["[[Category:"] and ["]]"], and it neither
    starts nor ends with a space, a tab or a pipe. *)
Theorem categories_stand_in_text (p : Page) (c : bytes) :
  In c (Categories (GetCategories_page p)) ->
  exists name,
    c = Trim name cutset /\
    name <> [] /\ mem NL name = false /\
    contains (b "[[Category:" ++ name ++ b "]]") (Text (Revision p)) /\
    head_outside cutset c /\ head_outside cutset (rev c).
Proof.
  rewrite GetCategories_page_Categories. intros H.
  apply in_map_iff in H. destruct H as [m [<- Hm]].
  rewrite categoryRegex_bracketed in Hm.
  destruct (FindAll_bracketed_sound (b "Category:") Dot
              (S (length (Text (Revision p)))) _ m (Nat.lt_succ_diag_r _) Hm)
    as [t [-> [Hne [Ht Hc]]]].
  unfold sub1. cbn [nth]. exists t.
  destruct (Trim_spec t cutset) as [l [r [_ [_ [_ [H1 H2]]]]]].
  repeat split; try assumption.
  apply dot_run in Ht. destruct (mem NL t) eqn:E; [|reflexivity].
  apply mem_In in E. contradiction.
Qed.

Lemma categories_stand_in_text_witness :
  exists name,
    b "Foo" = Trim name cutset /\
    name <> [] /\ mem NL name = false /\
    contains (b "[[Category:" ++ name ++ b "]]")
             (Text (Revision (page_of_text (b "x [[Category: Foo | ]] ]]")))) /\
    head_outside cutset (b "Foo") /\ head_outside cutset (rev (b "Foo")).
Proof.
  apply (categories_stand_in_text
           (page_of_text (b "x [[Category: Foo | ]] ]]")) (b "Foo")).
  vm_compute. now left.
Defined.

(** * The two extractors together *)

Lemma extractors_commute_page (p : Page) :
  GetCategories_page (GetLinks_page p) = GetLinks_page (GetCategories_page p).
Proof. reflexivity. Qed.

(** X13.  Link extraction and category extraction can be run in either
    order with the same result, and neither changes a title, a revision
    or the number and order of the pages; the link extractor leaves the
    categories alone and the category extractor the links. *)
Theorem extractors_commute (pages : list Page) :
  GetCategories (GetLinks pages) = GetLinks (GetCategories pages) /\
  map Title (GetCategories (GetLinks pages)) = map Title pages /\
  map Revision (GetCategories (GetLinks pages)) = map Revision pages /\
  map Categories (GetLinks pages) = map Categories pages /\
  map Links (GetCategories pages) = map Links pages.
Proof.
  unfold GetCategories, GetLinks. rewrite !map_map.
  split; [apply map_ext; intros p; apply extractors_commute_page|].
  repeat split; apply map_ext; intros p; reflexivity.
Qed.

Lemma FindAll_no_bracket (prefix : bytes) (cls : class) (s : bytes) :
  mem "["%byte s = false ->
  FindAllStringSubmatch (bracketed prefix cls) s = [].
Proof.
  intros H. rewrite <- (app_nil_r s).
  rewrite (FindAll_skip_plain prefix cls s [] H).
  reflexivity.
Qed.

(** X14.  A page whose text holds no opening bracket, the empty text
    included, passes the link extractor unchanged and leaves the category
    extractor with an empty list of categories. *)
Theorem text_without_brackets (p : Page) :
  mem "["%byte (Text (Revision p)) = false ->
  GetLinks_page p = p /\
  Categories (GetCategories_page p) = [].
Proof.
  intros H. split.
  - unfold GetLinks_page. rewrite linkRegex_bracketed.
    rewrite (FindAll_no_bracket _ _ _ H). now destruct p.
  - rewrite GetCategories_page_Categories, categoryRegex_bracketed.
    now rewrite (FindAll_no_bracket _ _ _ H).
Qed.

Lemma text_without_brackets_witness :
  GetLinks_page (page_of_text []) = page_of_text [] /\
  Categories (GetCategories_page (page_of_text [])) = [].
Proof.
  apply (text_without_brackets (page_of_text [])). reflexivity.
Defined.

(** * The positions of package visual *)

Section Layout.

Variables Vector float64 Rand Node Graph : Type.
Variable Float64 : Rand -> float64 * Rand.
Variable newVector : float64 -> nat -> Vector.
Variable Name : Node -> string.
Variable neighbours : Graph -> Node -> nat.

Local Abbreviation get := (SafeGet Float64 newVector Name neighbours).

Lemma store_same (self : positions Vector Graph) (k : string) (v : Vector) :
  Positions (store self k v) k = Some v.
Proof. simpl. now rewrite String.eqb_refl. Qed.

Lemma store_other (self : positions Vector Graph) (k k' : string) (v : Vector) :
  k' <> k -> Positions (store self k v) k' = Positions self k'.
Proof.
  intros H. simpl. apply String.eqb_neq in H. now rewrite H.
Qed.

Lemma SafeGet_stored
  (self : positions Vector Graph) (node : Node) (rng : Rand) :
  Positions (snd (fst (get self node rng))) (Name node) =
  Some (fst (fst (get self node rng))).
Proof.
  unfold SafeGet. destruct (Positions self (Name node)) as [v0|] eqn:E.
  - exact E.
  - destruct (Float64 rng) as [angle rng']. apply store_same.
Qed.

(** X15.  [SafeGet] records the vector it returns under the node's name
    and touches nothing else: every other name keeps what it had, a
    position already recorded is returned as it is, without a draw from
    the random source, and is never replaced, and the graph stays. *)
Theorem SafeGet_records
  (self : positions Vector Graph) (node : Node) (rng : Rand) :
  let '(vector, self', rng') := get self node rng in
  Positions self' (Name node) = Some vector /\
  (forall k, k <> Name node -> Positions self' k = Positions self k) /\
  (forall k v, Positions self k = Some v -> Positions self' k = Some v) /\
  (forall v, Positions self (Name node) = Some v ->
             vector = v /\ self' = self /\ rng' = rng) /\
  Graph_of self' = Graph_of self.
Proof.
  unfold SafeGet. destruct (Positions self (Name node)) as [v0|] eqn:E.
  - repeat split; try assumption; try congruence.
  - destruct (Float64 rng) as [angle rng'].
    split; [apply store_same|].
    split; [intros k Hk; now apply store_other|].
    split; [|split; [intros v; discriminate|reflexivity]].
    intros k v Hv. destruct (String.eqb_spec k (Name node)) as [->|Hk].
    + congruence.
    + rewrite store_other; assumption.
Qed.

(** X16.  The positions are kept by name: once [SafeGet] has answered for
    a node, it answers with the same vector for every node of that name,
    whatever its neighbours, without drawing from the random source and
    without changing the positions. *)
Theorem SafeGet_shared_by_name
  (self : positions Vector Graph) (node other : Node) (rng later : Rand) :
  Name other = Name node ->
  let '(vector, self', _) := get self node rng in
  get self' other later = (vector, self', later).
Proof.
  intros Hn.
  pose proof (SafeGet_stored self node rng) as H.
  destruct (get self node rng) as [[vector self'] rng'].
  simpl in H. unfold SafeGet. rewrite Hn, H. reflexivity.
Qed.

End Layout.

Lemma SafeGet_records_witness :
  Positions (snd (fst (sample_get (newPositions tt) ("a"%string, 3) 0)))
            "b"%string =
  Positions (newPositions (Vector := nat * nat) tt) "b"%string.
Proof.
  pose proof (SafeGet_records _ _ _ _ _ sample_Float64 sample_newVector
                (@fst string nat) sample_neighbours
                (newPositions tt) ("a"%string, 3) 0) as H.
  cbn in H. destruct H as [_ [H _]]. apply (H "b"%string). discriminate.
Defined.

Lemma SafeGet_shared_by_name_witness :
  sample_get (store (newPositions tt) "a"%string (0, 3)) ("a"%string, 5) 9 =
  ((0, 3), store (newPositions tt) "a"%string (0, 3), 9).
Proof.
  exact (SafeGet_shared_by_name _ _ _ _ _ sample_Float64 sample_newVector
           (@fst string nat) sample_neighbours
           (newPositions tt) ("a"%string, 3) ("a"%string, 5) 0 9 eq_refl).
Defined.
